(** * reposheet: a shallow embedding of [reposheet.py]

    The development follows the module top to bottom: the sparkline
    formatter [sparkline_svg], the memoised attribute resolver
    [GitHubRepoScanner.get_repo_attr] and the generator
    [GitHubRepoScanner.scan_repos].

    Python integers are [Z].  The sparkline is embedded twice.
    [sparkline_points] and [sparkline_svg] compute with exact rationals
    [Q]: they give the formula of each coordinate, and the division by
    zero.  The module [Binary64] embeds the same lines with the
    arithmetic of Python floats: every true division and every product
    rounds to the nearest binary64 value, and a quotient or an int too
    large for a float raises [OverflowError].  Exceptions are the [Raise]
    side of [result]. *)

From Stdlib Require Import ZArith QArith Qround Qpower Qabs Qreduction.
From Stdlib Require Import List String Ascii Bool Lia.
From Stdlib Require Import Permutation Sorted DecimalString.
Import ListNotations.

Local Open Scope Z_scope.
Local Set Warnings "-register-all".

(* ------------------------------------------------------------------ *)
(** ** Exceptions and fallible computations *)

Inductive exn : Type :=
| AssertionError
| AttributeError
| IndexError
| TypeError
| ValueError
| ZeroDivisionError
| OverflowError
| re_error
| KeyboardInterrupt
| UnknownObjectException
| RateLimitExceededException
| BadCredentialsException
| GithubException (status : Z).

Inductive result (A : Type) : Type :=
| Ok (a : A)
| Raise (e : exn).

Arguments Ok {A} a.
Arguments Raise {A} e.

Definition rbind {A B : Type} (r : result A) (k : A -> result B) : result B :=
  match r with
  | Ok a => k a
  | Raise e => Raise e
  end.

Declare Scope result_scope.
Delimit Scope result_scope with result.
Notation "'do' x <- r ; k" := (rbind r (fun x => k))
  (at level 10, x pattern, r at level 100, k at level 200) : result_scope.

(** A list comprehension whose element expression may raise: the elements
    are evaluated left to right and the first exception aborts. *)
Fixpoint comprehension {A B : Type} (f : A -> result B) (l : list A)
  : result (list B) :=
  match l with
  | [] => Ok []
  | x :: l' =>
      (do y <- f x;
       do ys <- comprehension f l';
       Ok (y :: ys))%result
  end.

(** [enumerate(data)], counting from [i]. *)
Fixpoint enumerate_from {A : Type} (i : Z) (l : list A) : list (Z * A) :=
  match l with
  | [] => []
  | x :: l' => (i, x) :: enumerate_from (i + 1) l'
  end.

Definition enumerate {A : Type} (l : list A) : list (Z * A) :=
  enumerate_from 0 l.

Definition len {A : Type} (l : list A) : Z := Z.of_nat (List.length l).

(* ------------------------------------------------------------------ *)
(** ** Strings *)

Definition dquote : string := String (ascii_of_nat 34) EmptyString.

(** [sep.join(parts)] *)
Fixpoint join (sep : string) (parts : list string) : string :=
  match parts with
  | [] => EmptyString
  | [p] => p
  | p :: ps => (p ++ sep ++ join sep ps)%string
  end.

(** [str(n)] for an int. *)
Definition str_of_int (z : Z) : string := NilZero.string_of_int (Z.to_int z).

(* ------------------------------------------------------------------ *)
(** ** [sparkline_svg] *)

(** A coordinate as the f-string receives it: an int ([height-1]) or a
    float (the result of a true division). *)
Inductive num : Type :=
| NInt (z : Z)
| NFloat (q : Q).

(** [min(data)] and [max(data)]: [ValueError] on an empty sequence. *)
Definition py_min (data : list Z) : result Z :=
  match data with
  | [] => Raise ValueError
  | x :: l => Ok (fold_left Z.min l x)
  end.

Definition py_max (data : list Z) : result Z :=
  match data with
  | [] => Raise ValueError
  | x :: l => Ok (fold_left Z.max l x)
  end.

(** [a / b] on ints: true division, [ZeroDivisionError] when [b == 0].
    The quotient is exact here; [Binary64.truediv] below rounds it. *)
Definition truediv (a b : Z) : result Q :=
  if b =? 0 then Raise ZeroDivisionError
  else Ok (inject_Z a / inject_Z b)%Q.

(** The keyword parameters read with [params.get]. *)
Record Params : Type := mkParams {
  p_width : option Z;
  p_height : option Z;
  p_stroke : option string;
  p_weight : option Z
}.

Definition no_params : Params := mkParams None None None None.

Definition params_get {A : Type} (o : option A) (default : A) : A :=
  match o with
  | Some a => a
  | None => default
  end.

(** The two list comprehensions of lines 32-37, before formatting, with
    the coordinates as exact rationals. *)
Definition sparkline_points (data : list Z) (width height : Z)
  : result (list (num * num)) :=
  (do min_ <- py_min data;
   do max_ <- py_max data;
   if negb (min_ =? max_) then
     comprehension
       (fun '(i, val) =>
          do x <- truediv i (len data);
          do y <- truediv (max_ - val) max_;
          Ok (NFloat (x * inject_Z width), NFloat (y * inject_Z height)))
       (enumerate data)
   else
     comprehension
       (fun '(i, val) =>
          do x <- truediv i (len data);
          Ok (NFloat (x * inject_Z width), NInt (height - 1)))
       (enumerate data))%result.

Section Formatting.

(** [repr] of a Python float, as an f-string prints it. *)
Variable float_repr : Q -> string.

Definition format_num (n : num) : string :=
  match n with
  | NInt z => str_of_int z
  | NFloat q => float_repr q
  end.

Definition format_point (p : num * num) : string :=
  (format_num (fst p) ++ "," ++ format_num (snd p))%string.

(** Lines 38-40: the markup around the joined points. *)
Definition markup (width height : Z) (stroke : string) (weight : Z)
    (add_embed : bool) (pts : list (num * num)) : string :=
  let points := join " " (map format_point pts) in
  let style := ("fill: none; stroke: " ++ stroke ++ "; stroke-width: "
                  ++ str_of_int weight)%string in
  let svg := ("<svg height=" ++ dquote ++ str_of_int height ++ dquote
                ++ " width=" ++ dquote ++ str_of_int width ++ dquote
                ++ "><polyline points=" ++ dquote ++ points ++ dquote
                ++ " style=" ++ dquote ++ style ++ dquote
                ++ " /></svg>")%string in
  if add_embed then ("<embed>" ++ svg ++ "</embed>")%string else svg.

Definition sparkline_svg (data : list Z) (add_embed : bool) (params : Params)
  : result string :=
  let width := params_get (p_width params) (len data) in
  let height := params_get (p_height params) 10 in
  let stroke := params_get (p_stroke params) "#8cc665"%string in
  let weight := params_get (p_weight params) 2 in
  (do pts <- sparkline_points data width height;
   Ok (markup width height stroke weight add_embed pts))%result.

End Formatting.

(* ------------------------------------------------------------------ *)
(** ** [sparkline_svg] in float arithmetic *)

Module Binary64.

Definition pow2 (e : Z) : Q := (2 ^ e)%Q.

(** The binade of a positive rational: the [e] with
    [2^e <= q < 2^(e+1)]. *)
Definition floor_log2 (q : Q) : Z :=
  let e := Z.log2 (Qnum q) - Z.log2 (Zpos (Qden q)) in
  if Qle_bool (pow2 e) q then e else e - 1.

(** The integer nearest to [q], the even one of two equally near. *)
Definition round_half_even (q : Q) : Z :=
  let f := Qfloor q in
  match (q - inject_Z f ?= 1 # 2)%Q with
  | Lt => f
  | Gt => f + 1
  | Eq => if Z.even f then f else f + 1
  end.

(** The exponent of the last place of a binary64 value in the binade of
    [q]: 53 significant bits, and nothing below [2^-1074]. *)
Definition quantum (q : Q) : Z := Z.max (floor_log2 q - 52) (-1074).

(** The binary64 magnitude nearest to a non-negative [q], ties to even,
    were the exponent unbounded above. *)
Definition round (q : Q) : Q :=
  if Qeq_bool q 0 then 0%Q
  else Qred (inject_Z (round_half_even (q / pow2 (quantum q)))
             * pow2 (quantum q)).

(** Whether [q] rounds beyond the largest float. *)
Definition too_large (q : Q) : bool :=
  Qle_bool (pow2 1024) (round (Qabs q)).

(** A Python float: a finite value as sign and magnitude (so that [-0.0]
    is told from [0.0]), an infinity, or not a number. *)
Inductive float : Type :=
| Finite (negative : bool) (magnitude : Q)
| Infinity (negative : bool)
| NaN.

(** The float nearest to [a / b]; a zero quotient takes the sign of the
    operands. *)
Definition nearest_quotient (a b : Z) : float :=
  Finite (xorb (a <? 0) (b <? 0)) (round (Qabs (inject_Z a / inject_Z b))).

(** [a / b] on ints: the quotient is rounded once; [ZeroDivisionError]
    when [b == 0], [OverflowError] when the quotient is too large for a
    float. *)
Definition truediv (a b : Z) : result float :=
  if b =? 0 then Raise ZeroDivisionError
  else if too_large (inject_Z a / inject_Z b) then Raise OverflowError
  else Ok (nearest_quotient a b).

(** The float nearest to the int [n]. *)
Definition nearest_int (n : Z) : float :=
  Finite (n <? 0) (round (Qabs (inject_Z n))).

(** The conversion of the int operand of a float operation:
    [OverflowError] when the int is too large for a float. *)
Definition float_of_int (n : Z) : result float :=
  if too_large (inject_Z n) then Raise OverflowError else Ok (nearest_int n).

(** [x * y] on floats: the product is rounded, and overflows to an
    infinity without raising. *)
Definition float_mul (x y : float) : float :=
  match x, y with
  | Finite sx mx, Finite sy my =>
      let m := round (mx * my) in
      if Qle_bool (pow2 1024) m then Infinity (xorb sx sy)
      else Finite (xorb sx sy) m
  | Finite s m, Infinity s' | Infinity s', Finite s m =>
      if Qeq_bool m 0 then NaN else Infinity (xorb s s')
  | Infinity s, Infinity s' => Infinity (xorb s s')
  | NaN, _ | _, NaN => NaN
  end.

(** [x * n] for a float [x] and an int [n]: [n] is converted first. *)
Definition mul_int (x : float) (n : Z) : result float :=
  (do y <- float_of_int n;
   Ok (float_mul x y))%result.

(** The order of floats, for the statements about positions. *)
Definition float_le (x y : float) : Prop :=
  match x, y with
  | Finite sx mx, Finite sy my =>
      ((if sx then - mx else mx) <= (if sy then - my else my))%Q
  | Infinity true, Finite _ _ | Infinity true, Infinity _
  | Finite _ _, Infinity false | Infinity false, Infinity false => True
  | _, _ => False
  end.

(** A coordinate as the f-string receives it. *)
Inductive num : Type :=
| NInt (z : Z)
| NFloat (x : float).

(** The two list comprehensions of lines 32-37, before formatting.  In
    each element the x coordinate is evaluated before the y coordinate,
    and a quotient before the product it enters. *)
Definition sparkline_points (data : list Z) (width height : Z)
  : result (list (num * num)) :=
  (do min_ <- py_min data;
   do max_ <- py_max data;
   if negb (min_ =? max_) then
     comprehension
       (fun '(i, val) =>
          do q <- truediv i (len data);
          do x <- mul_int q width;
          do r <- truediv (max_ - val) max_;
          do y <- mul_int r height;
          Ok (NFloat x, NFloat y))
       (enumerate data)
   else
     comprehension
       (fun '(i, val) =>
          do q <- truediv i (len data);
          do x <- mul_int q width;
          Ok (NFloat x, NInt (height - 1)))
       (enumerate data))%result.

Section Formatting.

(** [repr] of a Python float, as an f-string prints it. *)
Variable float_repr : float -> string.

Definition format_num (n : num) : string :=
  match n with
  | NInt z => str_of_int z
  | NFloat x => float_repr x
  end.

Definition format_point (p : num * num) : string :=
  (format_num (fst p) ++ "," ++ format_num (snd p))%string.

(** Lines 38-40: the markup around the joined points. *)
Definition markup (width height : Z) (stroke : string) (weight : Z)
    (add_embed : bool) (pts : list (num * num)) : string :=
  let points := join " " (map format_point pts) in
  let style := ("fill: none; stroke: " ++ stroke ++ "; stroke-width: "
                  ++ str_of_int weight)%string in
  let svg := ("<svg height=" ++ dquote ++ str_of_int height ++ dquote
                ++ " width=" ++ dquote ++ str_of_int width ++ dquote
                ++ "><polyline points=" ++ dquote ++ points ++ dquote
                ++ " style=" ++ dquote ++ style ++ dquote
                ++ " /></svg>")%string in
  if add_embed then ("<embed>" ++ svg ++ "</embed>")%string else svg.

Definition sparkline_svg (data : list Z) (add_embed : bool) (params : Params)
  : result string :=
  let width := params_get (p_width params) (len data) in
  let height := params_get (p_height params) 10 in
  let stroke := params_get (p_stroke params) "#8cc665"%string in
  let weight := params_get (p_weight params) 2 in
  (do pts <- sparkline_points data width height;
   Ok (markup width height stroke weight add_embed pts))%result.

End Formatting.

End Binary64.

(* ------------------------------------------------------------------ *)
(** ** Python values seen by the scanner *)

(** The values an attribute of a repository resolves to.  [VPaginated] is
    a [PaginatedList], of which the scanner only reads [totalCount] (a
    request of its own, which may raise); [VStats] is one week of
    [get_stats_commit_activity], of which it reads [total]. *)
Inductive value : Type :=
| VNone
| VBool (b : bool)
| VInt (z : Z)
| VStr (s : string)
| VDatetime (t : Z)
| VList (l : list value)
| VDict (d : list (string * value))
| VPaginated (totalCount : result Z)
| VStats (total : Z).

Definition exn_eqb (a b : exn) : bool :=
  match a, b with
  | AssertionError, AssertionError
  | AttributeError, AttributeError
  | IndexError, IndexError
  | TypeError, TypeError
  | ValueError, ValueError
  | ZeroDivisionError, ZeroDivisionError
  | OverflowError, OverflowError
  | re_error, re_error
  | KeyboardInterrupt, KeyboardInterrupt
  | UnknownObjectException, UnknownObjectException
  | RateLimitExceededException, RateLimitExceededException
  | BadCredentialsException, BadCredentialsException => true
  | GithubException s, GithubException s' => s =? s'
  | _, _ => false
  end.

Definition result_eqb {A : Type} (eqb : A -> A -> bool) (a b : result A)
  : bool :=
  match a, b with
  | Ok x, Ok y => eqb x y
  | Raise e, Raise e' => exn_eqb e e'
  | _, _ => false
  end.

Fixpoint value_eqb (a b : value) {struct a} : bool :=
  match a, b with
  | VNone, VNone => true
  | VBool x, VBool y => Bool.eqb x y
  | VInt x, VInt y => x =? y
  | VStr x, VStr y => String.eqb x y
  | VDatetime x, VDatetime y => x =? y
  | VList l, VList l' =>
      (fix list_eqb (l l' : list value) {struct l} : bool :=
         match l, l' with
         | [], [] => true
         | x :: t, y :: t' => value_eqb x y && list_eqb t t'
         | _, _ => false
         end) l l'
  | VDict d, VDict d' =>
      (fix dict_eqb (d d' : list (string * value)) {struct d} : bool :=
         match d, d' with
         | [], [] => true
         | (k, x) :: t, (k', y) :: t' =>
             String.eqb k k' && value_eqb x y && dict_eqb t t'
         | _, _ => false
         end) d d'
  | VPaginated x, VPaginated y => result_eqb Z.eqb x y
  | VStats x, VStats y => x =? y
  | _, _ => false
  end.

(** Truth value of an object, as [if x] tests it. *)
Definition truthy (v : value) : bool :=
  match v with
  | VNone => false
  | VBool b => b
  | VInt z => negb (z =? 0)
  | VStr s => negb (String.eqb s EmptyString)
  | VDatetime _ => true
  | VList l => match l with [] => false | _ => true end
  | VDict d => match d with [] => false | _ => true end
  | VPaginated _ => true
  | VStats _ => true
  end.

(** Truth value of an [Optional[str]] argument: [None] and the empty
    string are false. *)
Definition truthy_str (o : option string) : bool :=
  match o with
  | Some s => negb (String.eqb s EmptyString)
  | None => false
  end.

(** What [repo.__getattribute__(name)] gives: a plain value, or a bound
    method; [call args kwargs] is the outcome of calling it with the
    list [args] unpacked as positional and the dict [kwargs] as keyword
    arguments. *)
Inductive attr : Type :=
| Plain (v : value)
| Method (call : value -> value -> result value).

(** A repository object: its identity, and the [name] the scanner reads
    directly ([r.name]) when it sorts and filters. *)
Record Repository : Type := mkRepository {
  repo_id : nat;
  r_name : string
}.

(** The state behind the repository objects: attribute lookup by object
    identity and attribute name.  It belongs to the GitHub client and may
    change between two calls. *)
Definition Heap : Type := nat -> string -> result attr.

Record Owner : Type := mkOwner {
  login : string;
  get_repos : result (list Repository)
}.

(** The client [self.g]. *)
Record Github : Type := mkGithub {
  get_organization : option string -> result Owner;
  get_user : option string -> result Owner
}.

(* ------------------------------------------------------------------ *)
(** ** The scanner's state: the memoisation cache and the requests made *)

(** A cache key: a call [get_repo_attr(repo, name, *pos, **kw)] as it is
    written.  [@cached] builds its key from the arguments it is handed,
    before any default is filled in: [repo] by identity, [name], the
    further positional arguments, and the keyword arguments in the order
    written.  A default left out and the same value spelled out, or an
    argument passed by position and by keyword, are different keys.
    ([repo] and [name] are passed by position, as everywhere in the
    module.) *)
Record Key : Type := mkKey {
  k_repo : nat;
  k_name : string;
  k_pos : list value;
  k_kw : list (string * value)
}.

(** Keys are compared component by component.  (Python compares the
    arguments with [==], which also identifies [False] with [0] and
    [True] with [1]; the calls compared below are written the same way,
    or differ in the number of their arguments.) *)
Definition key_eqb (a b : Key) : bool :=
  Nat.eqb (k_repo a) (k_repo b)
  && String.eqb (k_name a) (k_name b)
  && value_eqb (VList (k_pos a)) (VList (k_pos b))
  && value_eqb (VDict (k_kw a)) (VDict (k_kw b)).

(** The requests that reach the GitHub client, in program order. *)
Inductive event : Type :=
| Ev_get_organization (who : option string)
| Ev_get_user (who : option string)
| Ev_get_repos (owner_login : string)
| Ev_accessor (k : Key).

Record State : Type := mkState {
  cache : list (Key * value);
  trace : list event
}.

Definition empty_state : State := mkState [] [].

(** State survives an exception: a computation returns its outcome and
    the state it left. *)
Definition M (A : Type) : Type := State -> result A * State.

Definition ret {A : Type} (a : A) : M A := fun st => (Ok a, st).

Definition raise {A : Type} (e : exn) : M A := fun st => (Raise e, st).

Definition bind {A B : Type} (m : M A) (k : A -> M B) : M B :=
  fun st =>
    match m st with
    | (Ok a, st') => k a st'
    | (Raise e, st') => (Raise e, st')
    end.

Definition lift {A : Type} (r : result A) : M A := fun st => (r, st).

Definition log (ev : event) : M unit :=
  fun st => (Ok tt, mkState (cache st) (trace st ++ [ev])).

(** [try: body  except: handler] with a handler that sees the exception. *)
Definition try_except {A : Type} (body : M A) (handler : exn -> M A) : M A :=
  fun st =>
    match body st with
    | (Ok a, st') => (Ok a, st')
    | (Raise e, st') => handler e st'
    end.

Declare Scope m_scope.
Delimit Scope m_scope with M.
Notation "'run' x <- m ;; k" := (bind m (fun x => k))
  (at level 10, x pattern, m at level 100, k at level 200) : m_scope.

Fixpoint cache_get (k : Key) (c : list (Key * value)) : option value :=
  match c with
  | [] => None
  | (k', v) :: c' => if key_eqb k k' then Some v else cache_get k c'
  end.

(** The [@cached] decorator of the [memoization] package with its default
    options (no size bound, no time to live): a hit returns the stored
    value without calling the function; a miss calls it, and stores the
    result only when the call returns. *)
Definition cached (user_function : Key -> result value) (k : Key) : M value :=
  fun st =>
    match cache_get k (cache st) with
    | Some v => (Ok v, st)
    | None =>
        let st1 := mkState (cache st) (trace st ++ [Ev_accessor k]) in
        match user_function k with
        | Ok v => (Ok v, mkState ((k, v) :: cache st1) (trace st1))
        | Raise e => (Raise e, st1)
        end
    end.

(** [res.totalCount] *)
Definition totalCount_of (res : value) : result value :=
  match res with
  | VPaginated (Ok n) => Ok (VInt n)
  | VPaginated (Raise e) => Raise e
  | _ => Raise AttributeError
  end.

(** The optional parameters of [get_repo_attr], in the order of the
    signature [total=False, args=[], kwargs={}]. *)
Definition optional_names : list string := ["total"; "args"; "kwargs"]%string.

Fixpoint distinct (names : list string) : bool :=
  match names with
  | [] => true
  | n :: names' => negb (existsb (String.eqb n) names') && distinct names'
  end.

(** Whether the interpreter can bind the call: at most three further
    positional arguments, and every keyword names an optional parameter
    that no positional argument fills, and is given once.  Otherwise the
    call raises [TypeError]. *)
Definition binds (pos : list value) (kw : list (string * value)) : bool :=
  Nat.leb (List.length pos) 3
  && forallb (fun n => existsb (String.eqb n)
                         (skipn (List.length pos) optional_names))
       (map fst kw)
  && distinct (map fst kw).

(** The value the parameter at place [i], named [n], is bound to: the
    positional argument at its place, else the keyword argument of its
    name, else its default. *)
Definition parameter (i : nat) (n : string) (default : value)
    (pos : list value) (kw : list (string * value)) : value :=
  match nth_error pos i with
  | Some v => v
  | None =>
      match find (fun nv => String.eqb (fst nv) n) kw with
      | Some nv => snd nv
      | None => default
      end
  end.

(** The decorated function, run on a call as written: the binding of the
    parameters, then the body, lines 78-83. *)
Definition get_repo_attr_body (h : Heap) (k : Key) : result value :=
  if negb (binds (k_pos k) (k_kw k)) then Raise TypeError
  else
    let total := parameter 0 "total" (VBool false) (k_pos k) (k_kw k) in
    let args := parameter 1 "args" (VList []) (k_pos k) (k_kw k) in
    let kwargs := parameter 2 "kwargs" (VDict []) (k_pos k) (k_kw k) in
    (do thing <- h (k_repo k) (k_name k);
     match thing with
     | Method call =>
         do res <- call args kwargs;
         if truthy total then totalCount_of res else Ok res
     | Plain v => Ok v
     end)%result.

(** [self.get_repo_attr(repo, name, *pos, **kw)] *)
Definition get_repo_attr (h : Heap) (repo : Repository) (name : string)
    (pos : list value) (kw : list (string * value)) : M value :=
  cached (get_repo_attr_body h) (mkKey (repo_id repo) name pos kw).

(** The keyword arguments of the two ways in which [scan_repos] calls:
    [get(repo, name)] and [get(repo, name, total=True)]. *)
Definition total_kw (total : bool) : list (string * value) :=
  if total then [("total"%string, VBool true)] else [].

(** How often the wrapped function ran, read off the trace. *)
Definition accessor_calls (k : Key) (t : list event) : nat :=
  List.length
    (filter (fun ev => match ev with
                       | Ev_accessor k' => key_eqb k k'
                       | _ => false
                       end) t).

(* ------------------------------------------------------------------ *)
(** ** Builtins used by [scan_repos] *)

(** [str.lower()] on the ASCII range, which holds every character GitHub
    admits in a repository name. *)
Definition lower_ascii (c : ascii) : ascii :=
  let n := nat_of_ascii c in
  if (Nat.leb 65 n && Nat.leb n 90)%bool then ascii_of_nat (n + 32) else c.

Fixpoint lower (s : string) : string :=
  match s with
  | EmptyString => EmptyString
  | String c s' => String (lower_ascii c) (lower s')
  end.

(** [s.split(sep)] for a one-character separator. *)
Fixpoint split_char (sep : ascii) (s : string) : list string :=
  match s with
  | EmptyString => [EmptyString]
  | String c s' =>
      if Ascii.eqb c sep then EmptyString :: split_char sep s'
      else match split_char sep s' with
           | [] => [String c EmptyString]
           | w :: ws => String c w :: ws
           end
  end.

Definition is_space (c : ascii) : bool :=
  let n := nat_of_ascii c in
  (Nat.eqb n 32 || (Nat.leb 9 n && Nat.leb n 13))%bool.

(** [s.split()]: the maximal runs of non-blank characters. *)
Definition split (s : string) : list string :=
  filter (fun w => negb (String.eqb w EmptyString))
    ((fix runs (s : string) : list string :=
        match s with
        | EmptyString => [EmptyString]
        | String c s' =>
            if is_space c then EmptyString :: runs s'
            else match runs s' with
                 | [] => [String c EmptyString]
                 | w :: ws => String c w :: ws
                 end
        end) s).

(** [x in fields] *)
Definition contains (x : string) (fields : list string) : bool :=
  existsb (String.eqb x) fields.

(** [sorted(l, key=key)] on string keys: a stable sort; an element goes
    in front of the first one whose key is not smaller. *)
Section Sorted.

Context {A : Type}.
Variable key : A -> string.

Fixpoint insert_by (x : A) (l : list A) : list A :=
  match l with
  | [] => [x]
  | y :: l' =>
      if String.leb (key x) (key y) then x :: y :: l'
      else y :: insert_by x l'
  end.

Fixpoint sorted (l : list A) : list A :=
  match l with
  | [] => []
  | x :: l' => insert_by x (sorted l')
  end.

(** The order [sorted] establishes. *)
Definition key_le (x y : A) : Prop := String.leb (key x) (key y) = true.

End Sorted.

(** A [dict] keeps insertion order; assigning to a present key keeps the
    key's place. *)
Definition Entry : Type := list (string * value).

Fixpoint dict_set (k : string) (v : value) (d : Entry) : Entry :=
  match d with
  | [] => [(k, v)]
  | (k', v') :: d' =>
      if String.eqb k' k then (k', v) :: d'
      else (k', v') :: dict_set k v d'
  end.

Fixpoint dict_get (k : string) (d : Entry) : option value :=
  match d with
  | [] => None
  | (k', v) :: d' => if String.eqb k' k then Some v else dict_get k d'
  end.

Definition keys (d : Entry) : list string := map fst d.

(** [d.update(other)] *)
Definition dict_update (d other : Entry) : Entry :=
  fold_left (fun acc kv => dict_set (fst kv) (snd kv) acc) other d.

(** [[r for r in l if p(r)]] with a test that may raise. *)
Fixpoint filter_comprehension {A : Type} (p : A -> result bool) (l : list A)
  : result (list A) :=
  match l with
  | [] => Ok []
  | x :: l' =>
      (do b <- p x;
       do rest <- filter_comprehension p l';
       Ok (if b then x :: rest else rest))%result
  end.

(** [[act.total for act in res]] *)
Definition totals (res : value) : result (list Z) :=
  match res with
  | VList l =>
      comprehension
        (fun act => match act with
                    | VStats t => Ok t
                    | _ => Raise AttributeError
                    end) l
  | VStr _ | VDict _ | VPaginated _ => Raise AttributeError
  | _ => Raise TypeError
  end.

Definition sum (l : list Z) : Z := fold_left Z.add l 0.

(* ------------------------------------------------------------------ *)
(** ** [GitHubRepoScanner.scan_repos] *)

(** What the generator yields.  The first [yield] hands out the list of
    repository objects, the later ones a record each; a record is tagged
    with the loop variable [repo] of the iteration that yields it (the tag
    is not part of the yielded dict). *)
Inductive item : Type :=
| YieldRepos (repos : list Repository)
| YieldEntry (repo : Repository) (entry : Entry).

(** A generator run to its end: the values yielded, and the exception
    that ended it ([None] when it returned). *)
Record Run : Type := mkRun {
  yields : list item;
  raised : option exn
}.

(** A callback [cb(scanner, repo)]: it may use the scanner, hence the
    cache, and returns a dict. *)
Definition Callback : Type := Repository -> M Entry.

Fixpoint for_each {A : Type} (l : list A) (body : A -> Entry -> M Entry)
    (entry : Entry) : M Entry :=
  match l with
  | [] => ret entry
  | a :: l' => (run entry' <- body a entry ;; for_each l' body entry')%M
  end.

(** [if name in fields: entry[name] = <expr>] *)
Definition field (fields : list string) (name : string) (expr : M value)
    (entry : Entry) : M Entry :=
  if contains name fields
  then (run v <- expr ;; ret (dict_set name v entry))%M
  else ret entry.

Definition default_fields : list string :=
  split ("name private archived fork created_at "
         ++ "issues contributors subscribers branches releases tags "
         ++ "labels pulls downloads forks_count stargazers_count "
         ++ "get_languages get_commits commit_activity").

(** The names of the built-in fields, in the order the loop body tests
    them. *)
Definition dispatch_order : list string :=
  ["name"; "full_name"]%string
  ++ split "private archived fork"
  ++ ["created_at"%string]
  ++ split ("issues contributors subscribers branches releases tags "
            ++ "labels pulls downloads")
  ++ ["forks_count"; "stargazers_count"; "get_languages"; "get_commits";
      "commits_1y"; "commit_activity"]%string.

(** The attribute a built-in field asks [get_repo_attr] for, and whether
    it asks with [total=True]. *)
Definition accessor_of (field_name : string) : string * bool :=
  if contains field_name
       (split ("issues contributors subscribers branches releases tags "
               ++ "labels pulls downloads"))
  then (("get_" ++ field_name)%string, true)
  else if String.eqb field_name "get_commits" then (field_name, true)
  else if contains field_name ["commits_1y"; "commit_activity"]%string
  then ("get_stats_commit_activity"%string, false)
  else (field_name, false).

Section Scanner.

(** [repr] of a float, and [str] of the objects that print with their
    address; both belong to the interpreter. *)
Variable float_repr : Q -> string.
Variable object_str : value -> string.

(** [re.match(pattern, string)] as a truth value: whether the pattern
    matches at the beginning of the string; [re.error] on a pattern that
    does not compile. *)
Variable re_match : string -> string -> result bool.

Variable g : Github.
Variable h : Heap.

(** [f'{v}'] *)
Definition py_str (v : value) : string :=
  match v with
  | VNone => "None"
  | VBool true => "True"
  | VBool false => "False"
  | VInt z => str_of_int z
  | VStr s => s
  | _ => object_str v
  end.

Definition get (repo : Repository) (name : string) (total : bool) : M value :=
  get_repo_attr h repo name [] (total_kw total).

Definition anchor (owner : Owner) (repo_name text : string) : string :=
  let url := ("https://github.com/" ++ login owner ++ "/" ++ repo_name)%string in
  ("<a href=" ++ dquote ++ url ++ dquote ++ ">" ++ text ++ "</a>")%string.

(** Lines 139-141. *)
Definition expr_name (owner : Owner) (repo : Repository) : M value :=
  (run repo_name <- get repo "name" false ;;
   ret (VStr (anchor owner (py_str repo_name) (py_str repo_name))))%M.

(** Lines 143-146. *)
Definition expr_full_name (owner : Owner) (repo : Repository) : M value :=
  (run full_name <- get repo "full_name" false ;;
   run repo_name <-
     lift match full_name with
          | VStr s =>
              match nth_error (split_char "/" s) 1 with
              | Some w => Ok w
              | None => Raise IndexError
              end
          | _ => Raise AttributeError
          end ;;
   ret (VStr (anchor owner repo_name (py_str full_name))))%M.

(** Line 149. *)
Definition expr_flag (repo : Repository) (name : string) : M value :=
  (run v <- get repo name false ;;
   ret (VStr (if truthy v then "T" else "F")))%M.

(** Line 162. *)
Definition expr_get_languages (repo : Repository) : M value :=
  (run langs <- get repo "get_languages" false ;;
   match langs with
   | VDict d => ret (VStr (join "," (sorted (fun s => s) (keys d))))
   | _ => raise AttributeError
   end)%M.

(** Lines 164-167: the bare [except] catches whatever was raised. *)
Definition expr_get_commits (repo : Repository) : M value :=
  try_except (get repo "get_commits" true) (fun _ => ret VNone).

(** Lines 169-174. *)
Definition expr_commits_1y (repo : Repository) : M value :=
  (run res <- get repo "get_stats_commit_activity" false ;;
   if truthy res then
     run commit_activity <- lift (totals res) ;;
     run again <- lift (totals res) ;;
     ret (VInt (sum again))
   else ret (VInt 0))%M.

(** Lines 176-181. *)
Definition expr_commit_activity (repo : Repository) : M value :=
  (run res <- get repo "get_stats_commit_activity" false ;;
   if truthy res then
     run commit_activity <- lift (totals res) ;;
     run svg <- lift (sparkline_svg float_repr commit_activity false
                        (mkParams (Some 100) (Some 15) None None)) ;;
     ret (VStr svg)
   else ret (VStr EmptyString))%M.

(** Lines 182-184. *)
Definition apply_callbacks (callbacks : list Callback) (repo : Repository)
    (entry : Entry) : M Entry :=
  for_each callbacks
    (fun cb entry => run other <- cb repo ;; ret (dict_update entry other))%M
    entry.

(** The body of the loop, lines 137-184. *)
Definition build_entry (owner : Owner) (fields : list string)
    (callbacks : list Callback) (repo : Repository) : M Entry :=
  (run entry <- field fields "name" (expr_name owner repo) [] ;;
   run entry <- field fields "full_name" (expr_full_name owner repo) entry ;;
   run entry <- for_each (split "private archived fork")
                  (fun name => field fields name (expr_flag repo name)) entry ;;
   run entry <- field fields "created_at" (get repo "created_at" false) entry ;;
   run entry <- for_each
                  (split ("issues contributors subscribers branches releases tags "
                          ++ "labels pulls downloads"))
                  (fun key => field fields key (get repo ("get_" ++ key) true))
                  entry ;;
   run entry <- field fields "forks_count" (get repo "forks_count" false) entry ;;
   run entry <- field fields "stargazers_count"
                  (get repo "stargazers_count" false) entry ;;
   run entry <- field fields "get_languages" (expr_get_languages repo) entry ;;
   run entry <- field fields "get_commits" (expr_get_commits repo) entry ;;
   run entry <- field fields "commits_1y" (expr_commits_1y repo) entry ;;
   run entry <- field fields "commit_activity" (expr_commit_activity repo) entry ;;
   apply_callbacks callbacks repo entry)%M.

(** The loop body read as a table: the built-in fields in the order the
    body tests them, each with the expression it assigns. *)
Definition dispatch (owner : Owner) (repo : Repository)
  : list (string * M value) :=
  [("name"%string, expr_name owner repo);
   ("full_name"%string, expr_full_name owner repo)]
  ++ map (fun name => (name, expr_flag repo name))
       (split "private archived fork")
  ++ [("created_at"%string, get repo "created_at" false)]
  ++ map (fun key => (key, get repo ("get_" ++ key) true))
       (split ("issues contributors subscribers branches releases tags "
               ++ "labels pulls downloads"))
  ++ [("forks_count"%string, get repo "forks_count" false);
      ("stargazers_count"%string, get repo "stargazers_count" false);
      ("get_languages"%string, expr_get_languages repo);
      ("get_commits"%string, expr_get_commits repo);
      ("commits_1y"%string, expr_commits_1y repo);
      ("commit_activity"%string, expr_commit_activity repo)].

Definition assign_fields (fields : list string)
    (table : list (string * M value)) (entry : Entry) : M Entry :=
  for_each table (fun row => field fields (fst row) (snd row)) entry.

(** The [for] loop of line 136: one record per repository, until the body
    raises. *)
Fixpoint scan_loop (body : Repository -> M Entry) (repos : list Repository)
    (st : State) : Run * State :=
  match repos with
  | [] => (mkRun [] None, st)
  | repo :: repos' =>
      match body repo st with
      | (Raise e, st') => (mkRun [] (Some e), st')
      | (Ok entry, st') =>
          let '(r, st'') := scan_loop body repos' st' in
          (mkRun (YieldEntry repo entry :: yields r) (raised r), st'')
      end
  end.

(** Lines 112-121. *)
Definition resolve_owner (org_name user_name owner_name : option string)
  : M Owner :=
  if negb (truthy_str owner_name) then
    if truthy_str org_name
    then (run _ <- log (Ev_get_organization org_name) ;;
          lift (get_organization g org_name))%M
    else (run _ <- log (Ev_get_user user_name) ;;
          lift (get_user g user_name))%M
  else
    try_except
      (run _ <- log (Ev_get_organization owner_name) ;;
       lift (get_organization g owner_name))%M
      (fun e =>
         match e with
         | UnknownObjectException =>
             try_except
               (run _ <- log (Ev_get_user owner_name) ;;
                lift (get_user g owner_name))%M
               (fun e' => raise e')
         | _ => raise e
         end).

(** The generator, run to its end from state [st]. *)
Definition scan_repos (org_name user_name owner_name repo_name_pat
                         : option string)
    (fields : option (list string)) (callbacks : list Callback)
    (st : State) : Run * State :=
  if negb (len (filter truthy_str [org_name; user_name; owner_name]) =? 1)
  then (mkRun [] (Some AssertionError), st)
  else
    match resolve_owner org_name user_name owner_name st with
    | (Raise e, st1) => (mkRun [] (Some e), st1)
    | (Ok owner, st1) =>
        match (run _ <- log (Ev_get_repos (login owner)) ;;
               lift (get_repos owner))%M st1 with
        | (Raise e, st2) => (mkRun [] (Some e), st2)
        | (Ok listed, st2) =>
            let repos := sorted (fun r => lower (r_name r)) listed in
            match
              (if truthy_str repo_name_pat
               then filter_comprehension
                      (fun r => re_match (params_get repo_name_pat EmptyString)
                                  (r_name r)) repos
               else Ok repos)
            with
            | Raise e => (mkRun [YieldRepos repos] (Some e), st2)
            | Ok matching =>
                let fields :=
                  match fields with
                  | Some (f :: fs) => f :: fs
                  | _ => default_fields
                  end in
                let '(r, st3) :=
                  scan_loop (build_entry owner fields callbacks) matching st2 in
                (mkRun (YieldRepos repos :: yields r) (raised r), st3)
            end
        end
    end.

End Scanner.

(* ------------------------------------------------------------------ *)
(** ** A concrete world, used to run the model *)

Module Demo.

(** A float printed as the reduced fraction it stands for. *)
Definition float_repr (q : Q) : string :=
  let r := Qred q in
  (str_of_int (Qnum r) ++ "/" ++ str_of_int (Zpos (Qden r)))%string.

Definition object_str (v : value) : string := "<object>".

(** A matcher for patterns without special characters: such a pattern
    matches at the beginning of a string when it is a prefix of it. *)
Definition re_match (pattern s : string) : result bool :=
  Ok (String.prefix pattern s).

Definition alpha : Repository := mkRepository 1 "alpha".
Definition Beta : Repository := mkRepository 2 "Beta".
Definition gamma : Repository := mkRepository 3 "gamma".

Definition week (n : Z) : value := VStats n.

(** [alpha] answers every request; [Beta] is an empty repository, whose
    commit list cannot be counted; [gamma] has no readable star count. *)
Definition heap : Heap :=
  fun id name =>
    if String.eqb name "name" then
      Ok (Plain (VStr (match id with 1%nat => "alpha" | 2%nat => "Beta"
                                | _ => "gamma" end)))
    else if String.eqb name "stargazers_count" then
      match id with
      | 3%nat => Raise RateLimitExceededException
      | _ => Ok (Plain (VInt (Z.of_nat id * 10)))
      end
    else if String.eqb name "fork" then Ok (Plain (VBool false))
    else if String.eqb name "get_issues" then
      Ok (Method (fun _ _ => Ok (VPaginated (Ok 4))))
    else if String.eqb name "get_commits" then
      Ok (Method (fun _ _ =>
                    Ok (VPaginated (match id with
                                    | 2%nat => Raise (GithubException 409)
                                    | _ => Ok 7
                                    end))))
    else if String.eqb name "get_stats_commit_activity" then
      Ok (Method (fun _ _ =>
                    Ok (match id with
                        | 1%nat => VList [week 1; week 0; week 3]
                        | _ => VNone
                        end)))
    else Raise AttributeError.

(** The same repositories after the counters moved on. *)
Definition heap_later : Heap :=
  fun id name =>
    if String.eqb name "stargazers_count" then Ok (Plain (VInt 999))
    else heap id name.

Definition octocat : Owner := mkOwner "octocat" (Ok [gamma; Beta; alpha]).

Definition github : Github :=
  mkGithub
    (fun _ => Raise UnknownObjectException)
    (fun who => match who with
                | Some "octocat"%string => Ok octocat
                | _ => Raise UnknownObjectException
                end).

Definition scan := scan_repos float_repr object_str re_match github heap.

End Demo.

(** A second world, in which every default field of a repository
    resolves. *)
Module Fixture.

Definition repo : Repository := mkRepository 7 "reposheet".

Definition heap : Heap :=
  fun id name =>
    if String.eqb name "name" then Ok (Plain (VStr "reposheet"))
    else if contains name ["private"; "archived"; "fork"]%string
    then Ok (Plain (VBool (String.eqb name "fork")))
    else if String.eqb name "created_at" then Ok (Plain (VDatetime 1577836800))
    else if contains name ["forks_count"; "stargazers_count"]%string
    then Ok (Plain (VInt 5))
    else if String.eqb name "get_languages"
    then Ok (Method (fun _ _ =>
                       Ok (VDict [("Python"%string, VInt 900);
                                  ("Jupyter Notebook"%string, VInt 100)])))
    else if String.eqb name "get_stats_commit_activity"
    then Ok (Method (fun _ _ => Ok (VList [VStats 2; VStats 0; VStats 5])))
    else if String.prefix "get_" name
    then Ok (Method (fun _ _ => Ok (VPaginated (Ok 3))))
    else Raise AttributeError.

Definition owner : Owner := mkOwner "deeplook" (Ok [repo]).

Definition github : Github :=
  mkGithub (fun _ => Raise UnknownObjectException) (fun _ => Ok owner).

(** [repr] of a float, right on the values the examples below compute:
    a whole number prints with [.0], a fraction with a power of two as
    denominator prints its decimal expansion.  (Python prints these so
    when the expansion has at most 15 digits and the value lies between
    [1e-4] and [1e16].) *)
Definition float_repr (x : Binary64.float) : string :=
  match x with
  | Binary64.Finite negative m =>
      let r := Qred m in
      let n := Qnum r in
      let d := Zpos (Qden r) in
      let j := Z.log2 d in
      let scaled := n * 5 ^ j in
      let frac := str_of_int (scaled mod 10 ^ j) in
      let zeros := String.concat EmptyString
                     (repeat "0"%string (Z.to_nat j - String.length frac)) in
      let sign := if negative then "-"%string else EmptyString in
      let digits := if d =? 1 then "0"%string else (zeros ++ frac)%string in
      (sign ++ str_of_int (scaled / 10 ^ j) ++ "." ++ digits)%string
  | Binary64.Infinity negative =>
      if negative then "-inf"%string else "inf"%string
  | Binary64.NaN => "nan"%string
  end.

(** Two callbacks that both set [stars]; the second also overwrites the
    built-in [name]. *)
Definition first_cb : Callback :=
  fun _ => ret [("stars"%string, VInt 1)].

Definition second_cb : Callback :=
  fun _ => ret [("stars"%string, VInt 2); ("name"%string, VStr "plain")].

End Fixture.

(* ------------------------------------------------------------------ *)
(** ** [ReposheetUI.start_scan], up to the creation of the generator *)

(** [c in s] for a one-character [c]. *)
Fixpoint has_char (c : ascii) (s : string) : bool :=
  match s with
  | EmptyString => false
  | String a s' => (Ascii.eqb a c || has_char c s')%bool
  end.

(** The test of line 256: when it holds [start_scan] shows
    [Expected: github.com/<owner>] and returns. *)
Definition url_rejected (value : string) : bool :=
  (negb (String.prefix "github.com/" value) || negb (has_char "/" value))%bool.

(** Line 272: [self.tx.value.split("/")[1]]. *)
Definition owner_name_of (value : string) : result string :=
  match nth_error (split_char "/" value) 1 with
  | Some w => Ok w
  | None => Raise IndexError
  end.

(** Lines 268-270. *)
Definition ui_default_fields : list string :=
  ["name"; "created_at"; "fork"; "contributors"; "subscribers";
   "forks_count"; "issues"; "pulls"; "stargazers_count"; "get_commits";
   "commits_1y"; "commit_activity"]%string.

Section StartScan.

Variable float_repr : Q -> string.
Variable object_str : value -> string.
Variable re_match : string -> string -> result bool.
Variable g : Github.
Variable h : Heap.

(** Lines 255-285 for a scanner that exists already: the message put in
    the status line when the URL is rejected, else the generator
    [scan_repos(owner_name=..., repo_name_pat=..., fields=...,
    callbacks=...)], run to its end. *)
Definition start_scan (tx_value rx_value : string)
    (fields : option (list string)) (callbacks : list Callback) (st : State)
  : string + result (Run * State) :=
  if url_rejected tx_value then inl "Expected: github.com/&lt;owner&gt;"%string
  else
    inr (do owner_name <- owner_name_of tx_value;
         Ok (scan_repos float_repr object_str re_match g h None None
               (Some owner_name) (Some rx_value)
               (Some match fields with
                     | Some (f :: fs) => f :: fs
                     | _ => ui_default_fields
                     end)
               callbacks st))%result.

End StartScan.

(* ------------------------------------------------------------------ *)
(** ** Vocabulary for the properties of the cache *)

(** Every value found in the cache of [st] is found, under the same
    key, in the cache of [st']. *)
Definition cache_extends (st st' : State) : Prop :=
  forall k v, cache_get k (cache st) = Some v -> cache_get k (cache st') = Some v.

(** The key of the call with which the built-in field [field_name]
    resolves its attribute of [repo]. *)
Definition field_key (repo : Repository) (field_name : string) : Key :=
  mkKey (repo_id repo) (fst (accessor_of field_name)) []
    (total_kw (snd (accessor_of field_name))).

(** Since the accessor had run [base] times for [k], it has not run
    again, or it has run once more and its result is in the cache. *)
Definition ran_at_most_once (k : Key) (base : nat) (st : State) : Prop :=
  accessor_calls k (trace st) = base
  \/ (accessor_calls k (trace st) = S base
      /\ cache_get k (cache st) <> None).

(** How the expression of a built-in field depends on its resolution:
    when the resolution returns [w] the expression leaves the state the
    resolution leaves, and its outcome is a function of [w] alone, the
    same for the row [row2] of another heap wherever [w] is cached; when
    the resolution raises, [get_commits] gives [None] and every other
    field raises. *)
Definition row_related (h : Heap) (repo : Repository)
    (row row2 : string * M value) : Prop :=
  fst row2 = fst row
  /\ forall st,
       match get h repo (fst (accessor_of (fst row)))
               (snd (accessor_of (fst row))) st with
       | (Ok w, s') =>
           exists r,
             snd row st = (r, s')
             /\ forall st2,
                  cache_get (field_key repo (fst row)) (cache st2) = Some w ->
                  snd row2 st2 = (r, st2)
       | (Raise e, s') =>
           snd row st
           = if String.eqb (fst row) "get_commits"
             then (Ok VNone, s') else (Raise e, s')
       end.

(* ================================================================== *)
(** * Properties *)

(* ------------------------------------------------------------------ *)
(** ** The sparkline *)

Lemma fold_min_spec (l : list Z) (x : Z) :
  (fold_left Z.min l x = x \/ In (fold_left Z.min l x) l)
  /\ fold_left Z.min l x <= x
  /\ (forall v, In v l -> fold_left Z.min l x <= v).
Proof.
  revert x; induction l as [|a l IH]; intro x; simpl.
  - repeat split; [now left | lia | intros v []].
  - destruct (IH (Z.min x a)) as (Hin & Hle & Hall).
    repeat split.
    + destruct Hin as [Heq | Hin]; [|now right; right].
      rewrite Heq. destruct (Z.min_spec x a) as [[_ ->] | [_ ->]]; auto.
    + lia.
    + intros v [<- | Hv]; [lia | auto].
Qed.

Lemma fold_max_spec (l : list Z) (x : Z) :
  (fold_left Z.max l x = x \/ In (fold_left Z.max l x) l)
  /\ x <= fold_left Z.max l x
  /\ (forall v, In v l -> v <= fold_left Z.max l x).
Proof.
  revert x; induction l as [|a l IH]; intro x; simpl.
  - repeat split; [now left | lia | intros v []].
  - destruct (IH (Z.max x a)) as (Hin & Hle & Hall).
    repeat split.
    + destruct Hin as [Heq | Hin]; [|now right; right].
      rewrite Heq. destruct (Z.max_spec x a) as [[_ ->] | [_ ->]]; auto.
    + lia.
    + intros v [<- | Hv]; [lia | auto].
Qed.

(** [min(data)] is the least element of a non-empty [data]. *)
Lemma py_min_least (data : list Z) (lo : Z) :
  In lo data -> (forall v, In v data -> lo <= v) -> py_min data = Ok lo.
Proof.
  destruct data as [|x l]; [intros [] |]. intros Hin Hall. simpl. f_equal.
  destruct (fold_min_spec l x) as (Hmem & Hle & Hlow).
  assert (In (fold_left Z.min l x) (x :: l)) as Hm
    by (destruct Hmem as [-> | ?]; [now left | now right]).
  apply Hall in Hm.
  destruct Hin as [<- | Hin]; [lia | apply Hlow in Hin; lia].
Qed.

Lemma py_max_greatest (data : list Z) (hi : Z) :
  In hi data -> (forall v, In v data -> v <= hi) -> py_max data = Ok hi.
Proof.
  destruct data as [|x l]; [intros [] |]. intros Hin Hall. simpl. f_equal.
  destruct (fold_max_spec l x) as (Hmem & Hle & Hup).
  assert (In (fold_left Z.max l x) (x :: l)) as Hm
    by (destruct Hmem as [-> | ?]; [now left | now right]).
  apply Hall in Hm.
  destruct Hin as [<- | Hin]; [lia | apply Hup in Hin; lia].
Qed.

Lemma comprehension_map {A B : Type} (f : A -> result B) (g : A -> B)
    (l : list A) :
  (forall x, In x l -> f x = Ok (g x)) -> comprehension f l = Ok (map g l).
Proof.
  induction l as [|x l IH]; intro H; simpl; [reflexivity |].
  rewrite (H x (or_introl eq_refl)). simpl.
  rewrite IH by (intros y Hy; apply H; now right). reflexivity.
Qed.

Lemma enumerate_from_length {A : Type} (l : list A) (i : Z) :
  List.length (enumerate_from i l) = List.length l.
Proof. revert i; induction l; intro i; simpl; auto. Qed.

Lemma enumerate_from_In {A : Type} (l : list A) (k i : Z) (v : A) :
  In (i, v) (enumerate_from k l) ->
  k <= i < k + len l /\ nth_error l (Z.to_nat (i - k)) = Some v.
Proof.
  unfold len. revert k; induction l as [|a l IH]; intro k; simpl; [intros [] |].
  intros [Heq | Hin].
  - inversion Heq; subst. replace (i - i) with 0 by lia. split; [lia | reflexivity].
  - apply IH in Hin. destruct Hin as [Hr Hn]. split; [lia |].
    replace (Z.to_nat (i - k)) with (S (Z.to_nat (i - (k + 1)))) by lia.
    exact Hn.
Qed.

Lemma enumerate_In {A : Type} (l : list A) (i : Z) (v : A) :
  In (i, v) (enumerate l) ->
  0 <= i < len l /\ nth_error l (Z.to_nat i) = Some v /\ In v l.
Proof.
  intro H. apply enumerate_from_In in H. destruct H as [Hr Hn].
  replace (i - 0) with i in Hn by lia.
  repeat split; try lia; auto. eapply nth_error_In; eauto.
Qed.

Lemma len_pos {A : Type} (l : list A) (v : A) : In v l -> 0 < len l.
Proof. destruct l; [intros [] | unfold len; simpl; lia]. Qed.




(** C9: called on the empty sequence, [sparkline_svg] returns no markup:
    [min] raises [ValueError]; a non-empty [data] is a precondition. *)
Theorem sparkline_svg_empty (float_repr : Q -> string) (add_embed : bool)
    (params : Params) :
  sparkline_svg float_repr [] add_embed params = Raise ValueError.
Proof. reflexivity. Qed.



(* ------------------------------------------------------------------ *)
(** ** Rounding to binary64 *)

Module Binary64Facts.

Import Binary64.


Lemma pow2_pos (e : Z) : (0 < pow2 e)%Q.
Proof. apply Qpower_0_lt. reflexivity. Qed.

Lemma pow2_add (a b : Z) : (pow2 (a + b) == pow2 a * pow2 b)%Q.
Proof. apply Qpower_plus. discriminate. Qed.

Lemma pow2_le (a b : Z) : a <= b -> (pow2 a <= pow2 b)%Q.
Proof. intro H. apply Qpower_le_compat_l; [exact H | discriminate]. Qed.

Lemma pow2_lt_inv (a b : Z) : (pow2 a < pow2 b)%Q -> a < b.
Proof. intro H. apply (Qpower_lt_compat_l_inv 2); [exact H | reflexivity]. Qed.

Lemma pow2_int (e : Z) : 0 <= e -> (pow2 e == inject_Z (2 ^ e))%Q.
Proof. intro H. unfold pow2. rewrite Zpower_Qpower by exact H. reflexivity. Qed.

Lemma floor_log2_spec (q : Q) :
  (0 < q)%Q ->
  (pow2 (floor_log2 q) <= q /\ q < pow2 (floor_log2 q + 1))%Q.
Proof.
  destruct q as [n d]. intro Hq.
  assert (0 < n) as Hn by (unfold Qlt in Hq; simpl in Hq; lia).
  unfold floor_log2. cbn [Qnum Qden].
  set (a := Z.log2 n). set (b := Z.log2 (Z.pos d)).
  assert (0 <= a) as Ha by apply Z.log2_nonneg.
  assert (0 <= b) as Hb by apply Z.log2_nonneg.
  destruct (Z.log2_spec n Hn) as [Hn1 Hn2]. fold a in Hn1, Hn2.
  destruct (Z.log2_spec (Z.pos d) eq_refl) as [Hd1 Hd2]. fold b in Hd1, Hd2.
  assert (0 < 2 ^ a) as Pa by (apply Z.pow_pos_nonneg; lia).
  assert (0 < 2 ^ b) as Pb by (apply Z.pow_pos_nonneg; lia).
  assert (0 < 2 ^ (a + 1)) as Pa1 by (apply Z.pow_pos_nonneg; lia).
  assert (0 < 2 ^ (b + 1)) as Pb1 by (apply Z.pow_pos_nonneg; lia).
  replace (Z.succ a) with (a + 1) in Hn2 by lia.
  replace (Z.succ b) with (b + 1) in Hd2 by lia.
  assert (forall x y : Z, 0 <= x -> 0 <= y ->
            (pow2 (x - y) == inject_Z (2 ^ x) / inject_Z (2 ^ y))%Q) as Hdiv.
  { intros x y Hx Hy. unfold pow2. rewrite Qpower_minus by discriminate.
    rewrite (Zpower_Qpower 2 x Hx), (Zpower_Qpower 2 y Hy). reflexivity. }
  assert (forall A B : Z, 0 < A -> 0 < B -> A * Z.pos d <= n * B ->
            (inject_Z A / inject_Z B <= n # d)%Q) as Hle.
  { intros A B HA HB H. apply Qle_shift_div_r.
    - unfold Qlt; simpl; lia.
    - unfold Qle; simpl. nia. }
  assert (forall A B : Z, 0 < A -> 0 < B -> n * B < A * Z.pos d ->
            (n # d < inject_Z A / inject_Z B)%Q) as Hlt.
  { intros A B HA HB H. apply Qlt_shift_div_l.
    - unfold Qlt; simpl; lia.
    - unfold Qlt; simpl. nia. }
  destruct (Qle_bool (pow2 (a - b)) (n # d)) eqn:E.
  - split; [apply Qle_bool_iff; exact E |].
    replace (a - b + 1) with ((a + 1) - b) by lia.
    rewrite Hdiv by lia. apply Hlt; [lia | lia | nia].
  - split.
    + replace (a - b - 1) with (a - (b + 1)) by lia.
      rewrite Hdiv by lia. apply Hle; [lia | lia | nia].
    + replace (a - b - 1 + 1) with (a - b) by lia.
      apply Qnot_le_lt. intro H. apply Qle_bool_iff in H. congruence.
Qed.

Lemma floor_log2_unique (q : Q) (e : Z) :
  (pow2 e <= q)%Q -> (q < pow2 (e + 1))%Q -> floor_log2 q = e.
Proof.
  intros H1 H2.
  assert (0 < q)%Q as Hq
    by (eapply Qlt_le_trans; [apply (pow2_pos e) | exact H1]).
  destruct (floor_log2_spec q Hq) as [L1 L2].
  assert (e < floor_log2 q + 1)
    by (apply pow2_lt_inv; eapply Qle_lt_trans; eauto).
  assert (floor_log2 q < e + 1)
    by (apply pow2_lt_inv; eapply Qle_lt_trans; eauto).
  lia.
Qed.

Lemma floor_log2_le (q1 q2 : Q) :
  (0 < q1)%Q -> (q1 <= q2)%Q -> floor_log2 q1 <= floor_log2 q2.
Proof.
  intros H0 H.
  assert (0 < q2)%Q as H2 by (eapply Qlt_le_trans; eauto).
  destruct (floor_log2_spec q1 H0) as [L1 _].
  destruct (floor_log2_spec q2 H2) as [_ L2].
  assert (floor_log2 q1 < floor_log2 q2 + 1); [|lia].
  apply pow2_lt_inv. eapply Qle_lt_trans; [exact L1 |].
  eapply Qle_lt_trans; eauto.
Qed.

Lemma floor_log2_compat (q q' : Q) :
  (0 < q)%Q -> (q == q')%Q -> floor_log2 q = floor_log2 q'.
Proof.
  intros H0 E. symmetry. 
  destruct (floor_log2_spec q H0) as [L1 L2].
  apply floor_log2_unique; rewrite <- E; assumption.
Qed.

Lemma round_half_even_compat (q q' : Q) :
  (q == q')%Q -> round_half_even q = round_half_even q'.
Proof.
  intro E. unfold round_half_even.
  rewrite (Qfloor_comp _ _ E).
  assert (q - inject_Z (Qfloor q') == q' - inject_Z (Qfloor q'))%Q as E2
    by (rewrite E; reflexivity).
  rewrite (Qcompare_comp _ _ E2 (1 # 2) (1 # 2) (Qeq_refl _)). reflexivity.
Qed.

Lemma round_half_even_int (z : Z) : round_half_even (inject_Z z) = z.
Proof.
  unfold round_half_even. rewrite Qfloor_Z.
  assert ((inject_Z z - inject_Z z ?= 1 # 2)%Q = Lt) as H.
  { apply Qlt_alt. apply Qle_lt_trans with 0%Q; [|reflexivity].
    unfold Qle, Qminus, Qplus, Qopp, inject_Z; simpl. lia. }
  rewrite H. reflexivity.
Qed.

Lemma round_half_even_bounds (q : Q) :
  Qfloor q <= round_half_even q <= Qfloor q + 1.
Proof.
  unfold round_half_even.
  destruct (q - inject_Z (Qfloor q) ?= 1 # 2)%Q; [|lia|lia].
  destruct (Z.even (Qfloor q)); lia.
Qed.

Lemma round_half_even_le (q1 q2 : Q) :
  (q1 <= q2)%Q -> round_half_even q1 <= round_half_even q2.
Proof.
  intro H. pose proof (Qfloor_resp_le _ _ H) as Hf.
  pose proof (round_half_even_bounds q1) as B1.
  pose proof (round_half_even_bounds q2) as B2.
  destruct (Z.eq_dec (Qfloor q1) (Qfloor q2)) as [E | N]; [|lia].
  unfold round_half_even. rewrite <- E.
  assert (q1 - inject_Z (Qfloor q1) <= q2 - inject_Z (Qfloor q1))%Q as Hr.
  { unfold Qminus. apply Qplus_le_l. exact H. }
  destruct (Qcompare_spec (q1 - inject_Z (Qfloor q1)) (1 # 2)) as [E1 | L1 | G1];
    destruct (Qcompare_spec (q2 - inject_Z (Qfloor q1)) (1 # 2)) as [E2 | L2 | G2];
    try lia; try (destruct (Z.even (Qfloor q1)); lia); exfalso.
  - rewrite E1 in Hr. apply (Qlt_irrefl (1 # 2)). eapply Qle_lt_trans; eauto.
  - rewrite E2 in Hr. apply (Qlt_irrefl (1 # 2)). eapply Qlt_le_trans; eauto.
  - apply (Qlt_irrefl (1 # 2)). eapply Qlt_trans; [exact G1 |].
    eapply Qle_lt_trans; eauto.
Qed.

(** [round] on a value that is not zero. *)
Lemma round_nonzero (q : Q) :
  (0 < q)%Q ->
  (round q == inject_Z (round_half_even (q / pow2 (quantum q)))
              * pow2 (quantum q))%Q.
Proof.
  intro H. unfold round.
  destruct (Qeq_bool q 0) eqn:E.
  - apply Qeq_bool_eq in E. rewrite E in H. discriminate.
  - apply Qred_correct.
Qed.

Lemma round_zero (q : Q) : (q == 0)%Q -> round q = 0%Q.
Proof. intro E. unfold round. rewrite (Qeq_eq_bool _ _ E). reflexivity. Qed.

Lemma round_compat (q q' : Q) :
  (0 <= q)%Q -> (q == q')%Q -> round q = round q'.
Proof.
  intros H0 E. unfold round. rewrite <- (Qeqb_comp _ _ E 0%Q 0%Q (Qeq_refl _)).
  destruct (Qeq_bool q 0) eqn:Ez; [reflexivity |].
  assert (0 < q)%Q as Hq.
  { apply Qeq_bool_neq in Ez. apply Qle_lt_or_eq in H0.
    destruct H0 as [? | H0]; [assumption |]. symmetry in H0. contradiction. }
  unfold quantum. rewrite <- (floor_log2_compat q q' Hq E).
  set (e := Z.max (floor_log2 q - 52) (-1074)).
  rewrite (round_half_even_compat (q' / pow2 e) (q / pow2 e));
    [reflexivity |].
  rewrite E. reflexivity.
Qed.

(** A multiple of the quantum is the bound of what rounds below it. *)
Lemma round_below (q : Q) (k : Z) :
  (0 < q)%Q -> (q <= inject_Z k * pow2 (quantum q))%Q ->
  (round q <= inject_Z k * pow2 (quantum q))%Q.
Proof.
  intros H0 H. rewrite (round_nonzero q H0).
  apply Qmult_le_compat_r; [|apply Qlt_le_weak, pow2_pos].
  rewrite <- Zle_Qle. rewrite <- (round_half_even_int k).
  apply round_half_even_le. apply Qle_shift_div_r; [apply pow2_pos | exact H].
Qed.

Lemma round_above (q : Q) (k : Z) :
  (0 < q)%Q -> (inject_Z k * pow2 (quantum q) <= q)%Q ->
  (inject_Z k * pow2 (quantum q) <= round q)%Q.
Proof.
  intros H0 H. rewrite (round_nonzero q H0).
  apply Qmult_le_compat_r; [|apply Qlt_le_weak, pow2_pos].
  rewrite <- Zle_Qle. rewrite <- (round_half_even_int k) at 1.
  apply round_half_even_le. apply Qle_shift_div_l; [apply pow2_pos | exact H].
Qed.

Lemma round_nonneg (q : Q) : (0 <= q)%Q -> (0 <= round q)%Q.
Proof.
  intro H. apply Qle_lt_or_eq in H. destruct H as [H | H].
  - pose proof (round_above q 0 H) as R. rewrite Qmult_0_l in R.
    apply R. apply Qlt_le_weak. exact H.
  - rewrite (round_zero q); [apply Qle_refl | symmetry; exact H].
Qed.

(** Rounding is monotone. *)
Lemma round_le (q1 q2 : Q) :
  (0 <= q1)%Q -> (q1 <= q2)%Q -> (round q1 <= round q2)%Q.
Proof.
  intros H0 H. apply Qle_lt_or_eq in H0. destruct H0 as [H1 | H1].
  2:{ rewrite (round_zero q1) by (symmetry; exact H1).
      apply round_nonneg. rewrite H1. exact H. }
  assert (0 < q2)%Q as H2 by (eapply Qlt_le_trans; eauto).
  pose proof (floor_log2_le q1 q2 H1 H) as HL.
  destruct (floor_log2_spec q1 H1) as [_ U1].
  destruct (floor_log2_spec q2 H2) as [L2 _].
  destruct (Z.eq_dec (quantum q1) (quantum q2)) as [E | N].
  - rewrite (round_nonzero q1 H1), (round_nonzero q2 H2), E.
    apply Qmult_le_compat_r; [|apply Qlt_le_weak, pow2_pos].
    rewrite <- Zle_Qle. apply round_half_even_le.
    unfold Qdiv. apply Qmult_le_compat_r; [exact H |].
    apply Qlt_le_weak, Qinv_lt_0_compat, pow2_pos.
  - assert (quantum q1 < quantum q2) as Hlt by (unfold quantum in *; lia).
    assert (quantum q2 = floor_log2 q2 - 52) as E2 by (unfold quantum in *; lia).
    assert (floor_log2 q1 + 1 <= floor_log2 q2) as Hb
      by (unfold quantum in *; lia).
    apply Qle_trans with (pow2 (floor_log2 q2)).
    + (* round q1 <= 2^L2 *)
      set (d := floor_log2 q2 - quantum q1).
      assert (0 <= d) as Hd by (unfold d; lia).
      assert (pow2 (floor_log2 q2) == inject_Z (2 ^ d) * pow2 (quantum q1))%Q
        as EB.
      { rewrite <- pow2_int by exact Hd. rewrite <- pow2_add.
        unfold d. f_equiv. lia. }
      rewrite EB. apply round_below; [exact H1 |]. rewrite <- EB.
      apply Qlt_le_weak. eapply Qlt_le_trans; [exact U1 |].
      apply pow2_le. exact Hb.
    + assert (pow2 (floor_log2 q2) == inject_Z (2 ^ 52) * pow2 (quantum q2))%Q
        as EB.
      { rewrite <- pow2_int by lia. rewrite <- pow2_add. f_equiv. lia. }
      rewrite EB. apply round_above; [exact H2 |]. rewrite <- EB. exact L2.
Qed.

(** A multiple of its own quantum is kept by rounding. *)
Lemma round_exact (q : Q) (k : Z) :
  (0 < q)%Q -> (q == inject_Z k * pow2 (quantum q))%Q -> (round q == q)%Q.
Proof.
  intros H0 E. apply Qle_antisym.
  - rewrite E at 2. apply round_below; [exact H0 |]. rewrite <- E.
    apply Qle_refl.
  - rewrite E at 1. apply round_above; [exact H0 |]. rewrite <- E.
    apply Qle_refl.
Qed.

Lemma Qred_inject_Z (z : Z) : Qred (inject_Z z) = inject_Z z.
Proof.
  assert (Qred (Qred (inject_Z z)) = Qred (inject_Z z)) as H
    by (apply Qred_complete, Qred_correct).
  pose proof (Qred_correct (inject_Z z)) as E.
  pose proof (gcd_Qred (inject_Z z)) as G.
  destruct (Qred (inject_Z z)) as [n d]. unfold Qeq in E. simpl in *.
  assert (Z.pos d = 1) as Hd.
  { assert (Z.divide (Z.pos d) n) as D by (exists z; lia).
    assert (Z.divide (Z.pos d) (Z.gcd n (Z.pos d))) as D2
      by (apply Z.gcd_greatest; [exact D | apply Z.divide_refl]).
    rewrite G in D2. apply Z.divide_1_r_nonneg in D2; lia. }
  assert (d = 1%positive) by lia. subst d. unfold inject_Z. f_equal. lia.
Qed.

(** Ints up to [2^53] are floats. *)
Lemma round_int (z : Z) :
  0 <= z <= 2 ^ 53 -> round (inject_Z z) = inject_Z z.
Proof.
  intros [H0 H]. destruct (Z.eq_dec z 0) as [-> | Hz]; [reflexivity |].
  assert (0 < inject_Z z)%Q as Hq by (unfold Qlt; simpl; lia).
  assert (round (inject_Z z) == inject_Z z)%Q as E.
  { destruct (floor_log2_spec _ Hq) as [L U].
    set (l := floor_log2 (inject_Z z)) in *.
    assert (l <= 53) as Hl.
    { assert (l < 54); [|lia]. apply pow2_lt_inv.
      eapply Qle_lt_trans; [exact L |].
      rewrite pow2_int by lia. rewrite <- Zlt_Qlt. lia. }
    assert (0 <= l) as Hl0.
    { assert (0 < l + 1); [|lia]. apply pow2_lt_inv.
      eapply Qle_lt_trans; [|exact U].
      change (pow2 0) with (inject_Z 1). rewrite <- Zle_Qle. lia. }
    destruct (Z.eq_dec l 53) as [E53 | N53].
    - assert (z = 2 ^ 53) as ->.
      { rewrite E53, pow2_int in L by lia. rewrite <- Zle_Qle in L. lia. }
      apply (round_exact _ (2 ^ 52)); [exact Hq |]. reflexivity.
    - assert (quantum (inject_Z z) = l - 52) as Eq
        by (unfold quantum; fold l; lia).
      apply (round_exact _ (z * 2 ^ (52 - l))); [exact Hq |].
      rewrite Eq, inject_Z_mult, <- Qmult_assoc.
      rewrite <- pow2_int by lia. rewrite <- pow2_add.
      replace (52 - l + (l - 52)) with 0 by lia.
      change (pow2 0) with 1%Q. rewrite Qmult_1_r. reflexivity. }
  unfold round in *.
  destruct (Qeq_bool (inject_Z z) 0) eqn:Ez.
  - apply Qeq_bool_eq in Ez. rewrite Ez in Hq. discriminate.
  - transitivity (Qred (inject_Z z)); [|apply Qred_inject_Z].
    apply Qred_complete.
    eapply Qeq_trans; [symmetry; apply Qred_correct | exact E].
Qed.

Lemma round_one : round 1 = 1%Q.
Proof. exact (round_int 1 ltac:(lia)). Qed.

Lemma small_fits (q : Q) :
  (0 <= q)%Q -> (q <= inject_Z (2 ^ 53))%Q ->
  Qle_bool (pow2 1024) (round q) = false.
Proof.
  intros H0 H. destruct (Qle_bool (pow2 1024) (round q)) eqn:E; [|reflexivity].
  apply Qle_bool_iff in E. exfalso.
  pose proof (round_le q (inject_Z (2 ^ 53)) H0 H) as R.
  rewrite (round_int (2 ^ 53)) in R by lia.
  assert (inject_Z (2 ^ 53) < pow2 1024)%Q as L by reflexivity.
  apply (Qlt_irrefl (pow2 1024)).
  eapply Qle_lt_trans; [exact E |]. eapply Qle_lt_trans; eauto.
Qed.

(** A fraction between 0 and 1. *)
Lemma unit_fraction (a b : Z) :
  0 <= a <= b -> 0 < b -> (inject_Z a / inject_Z b <= 1)%Q.
Proof.
  intros H Hb. apply Qle_shift_div_r; [unfold Qlt; simpl; lia |].
  rewrite Qmult_1_l. rewrite <- Zle_Qle. lia.
Qed.

Lemma fraction_nonneg (a b : Z) :
  0 <= a -> 0 < b -> (0 <= inject_Z a / inject_Z b)%Q.
Proof.
  intros H Hb. apply Qle_shift_div_l; [unfold Qlt; simpl; lia |].
  rewrite Qmult_0_l. unfold Qle; simpl; lia.
Qed.

(** The quotient of [0 <= a <= b] is a float between 0 and 1. *)
Lemma unit_quotient (a b : Z) :
  0 <= a <= b -> 0 < b ->
  exists m, nearest_quotient a b = Finite false m /\ (0 <= m <= 1)%Q.
Proof.
  intros H Hb. unfold nearest_quotient.
  assert ((a <? 0) = false) as -> by lia.
  assert ((b <? 0) = false) as -> by lia.
  eexists. split; [reflexivity |].
  pose proof (fraction_nonneg a b ltac:(lia) Hb) as F0.
  pose proof (unit_fraction a b H Hb) as F1.
  split.
  - apply round_nonneg, Qabs_nonneg.
  - rewrite <- round_one. apply round_le; [apply Qabs_nonneg |].
    rewrite Qabs_pos by exact F0. exact F1.
Qed.

Lemma truediv_unit (a b : Z) :
  0 <= a <= b -> 0 < b -> truediv a b = Ok (nearest_quotient a b).
Proof.
  intros H Hb. unfold truediv.
  destruct (Z.eqb_spec b 0); [lia |].
  unfold too_large. rewrite small_fits; [reflexivity | apply Qabs_nonneg |].
  rewrite Qabs_pos by (apply fraction_nonneg; lia).
  apply Qle_trans with 1%Q; [apply unit_fraction; assumption |].
  discriminate.
Qed.

Lemma Qabs_inject_Z (n : Z) : Qabs (inject_Z n) = inject_Z (Z.abs n).
Proof. reflexivity. Qed.

(** An int of at most [2^53] is converted without rounding. *)
Lemma nearest_int_exact (n : Z) :
  Z.abs n <= 2 ^ 53 -> nearest_int n = Finite (n <? 0) (inject_Z (Z.abs n)).
Proof.
  intro H. unfold nearest_int. rewrite Qabs_inject_Z, round_int; [reflexivity |].
  lia.
Qed.

Lemma float_of_int_exact (n : Z) :
  Z.abs n <= 2 ^ 53 -> float_of_int n = Ok (nearest_int n).
Proof.
  intro H. unfold float_of_int, too_large.
  rewrite small_fits; [reflexivity | apply Qabs_nonneg |].
  rewrite Qabs_inject_Z, <- Zle_Qle. exact H.
Qed.

Lemma mul_int_exact (x : float) (n : Z) :
  Z.abs n <= 2 ^ 53 -> mul_int x n = Ok (float_mul x (nearest_int n)).
Proof.
  intro H. unfold mul_int. rewrite float_of_int_exact by exact H. reflexivity.
Qed.


(** The points of the scaling branch, on values between 0 and the
    maximum. *)
Lemma scaled_points_rounded (data : list Z) (width height lo hi : Z) :
  In lo data -> In hi data ->
  (forall v, In v data -> lo <= v <= hi) ->
  lo < hi -> 0 <= lo ->
  Z.abs width <= 2 ^ 53 -> Z.abs height <= 2 ^ 53 ->
  sparkline_points data width height =
  Ok (map (fun iv =>
             (NFloat (float_mul (nearest_quotient (fst iv) (len data))
                        (nearest_int width)),
              NFloat (float_mul (nearest_quotient (hi - snd iv) hi)
                        (nearest_int height))))
        (enumerate data)).
Proof.
  intros Hlo Hhi Hall Hlt H0 Hw Hh. unfold sparkline_points.
  rewrite (py_min_least data lo), (py_max_greatest data hi);
    auto; try (intros v Hv; apply Hall; exact Hv).
  simpl. destruct (Z.eqb_spec lo hi) as [? | _]; [lia |]. simpl.
  apply comprehension_map. intros [i v] Hin. simpl.
  apply enumerate_In in Hin. destruct Hin as (Hi & _ & Hv).
  specialize (Hall v Hv).
  rewrite truediv_unit by lia. simpl.
  rewrite mul_int_exact by exact Hw. simpl.
  rewrite truediv_unit by lia. simpl.
  rewrite mul_int_exact by exact Hh. reflexivity.
Qed.

(** The product of a float between 0 and 1 and a height of at most
    [2^53] lies between 0 and the height. *)
Lemma scaled_y_rounded (m : Q) (height : Z) :
  (0 <= m <= 1)%Q -> 0 <= height <= 2 ^ 53 ->
  exists y, float_mul (Finite false m) (nearest_int height) = Finite false y
            /\ (0 <= y <= inject_Z height)%Q.
Proof.
  intros [M0 M1] Hh. rewrite nearest_int_exact by lia.
  assert ((height <? 0) = false) as -> by lia.
  rewrite Z.abs_eq by lia. unfold float_mul.
  assert (0 <= inject_Z height)%Q as Hq by (unfold Qle; simpl; lia).
  assert (0 <= m * inject_Z height)%Q as P0
    by (apply Qmult_le_0_compat; assumption).
  assert (m * inject_Z height <= inject_Z height)%Q as P1.
  { rewrite <- (Qmult_1_l (inject_Z height)) at 2.
    apply Qmult_le_compat_r; assumption. }
  rewrite small_fits; [| exact P0 |].
  2:{ eapply Qle_trans; [exact P1 |]. rewrite <- Zle_Qle. lia. }
  eexists. split; [reflexivity |]. split.
  - apply round_nonneg. exact P0.
  - apply Qle_trans with (round (inject_Z height));
      [apply round_le; assumption |].
    rewrite round_int by lia. apply Qle_refl.
Qed.

End Binary64Facts.

(* ------------------------------------------------------------------ *)
(** ** The sparkline in float arithmetic *)

(** Each operation rounds: [1 / 49 * 49] is [0.9999999999999999], one
    unit in the last place below 1, while [1 / 2 * 2] is [1.0]; and
    [(3 - 1) / 3 * 10] is [6.666666666666666], below [20 / 3]. *)
Example two_roundings :
  Binary64.float_mul (Binary64.nearest_quotient 1 49) (Binary64.nearest_int 49)
  = Binary64.Finite false (9007199254740991 # 9007199254740992)
  /\ Binary64.float_mul (Binary64.nearest_quotient 1 2) (Binary64.nearest_int 2)
     = Binary64.Finite false 1
  /\ Binary64.float_mul (Binary64.nearest_quotient (3 - 1) 3)
       (Binary64.nearest_int 10)
     = Binary64.Finite false (3752999689475413 # 562949953421312)
  /\ (3752999689475413 # 562949953421312 < 20 # 3)%Q.
Proof. repeat split; vm_compute; reflexivity. Qed.




(** C5, as stated, fails: of [[1; 2]] the minimum 1 is drawn at half
    height (y = 5.0 of 10), not at the bottom edge; of [[-1; 1]] the
    minimum is drawn at y = 20.0, outside 0..10. *)
Lemma sparkline_svg_min_not_at_bottom :
  py_min [1; 2] = Ok 1
  /\ Binary64.sparkline_points [1; 2] 2 10
     = Ok [(Binary64.NFloat (Binary64.Finite false 0),
            Binary64.NFloat (Binary64.Finite false 5));
           (Binary64.NFloat (Binary64.Finite false 1),
            Binary64.NFloat (Binary64.Finite false 0))]
  /\ Binary64.sparkline_svg Fixture.float_repr [1; 2] false no_params
     = Ok ("<svg height=" ++ dquote ++ "10" ++ dquote
             ++ " width=" ++ dquote ++ "2" ++ dquote
             ++ "><polyline points=" ++ dquote ++ "0.0,5.0 1.0,0.0" ++ dquote
             ++ " style=" ++ dquote
             ++ "fill: none; stroke: #8cc665; stroke-width: 2" ++ dquote
             ++ " /></svg>")%string
  /\ py_min [-1; 1] = Ok (-1)
  /\ Binary64.sparkline_points [-1; 1] 2 10
     = Ok [(Binary64.NFloat (Binary64.Finite false 0),
            Binary64.NFloat (Binary64.Finite false 20));
           (Binary64.NFloat (Binary64.Finite false 1),
            Binary64.NFloat (Binary64.Finite false 0))]
  /\ Binary64.sparkline_svg Fixture.float_repr [-1; 1] false no_params
     = Ok ("<svg height=" ++ dquote ++ "10" ++ dquote
             ++ " width=" ++ dquote ++ "2" ++ dquote
             ++ "><polyline points=" ++ dquote ++ "0.0,20.0 1.0,0.0" ++ dquote
             ++ " style=" ++ dquote
             ++ "fill: none; stroke: #8cc665; stroke-width: 2" ++ dquote
             ++ " /></svg>")%string.
Proof. repeat split; vm_compute; reflexivity. Qed.

(** C5, amended: on a non-constant sequence of non-negative values, with
    [width] and [weight] of at most [2^53] in magnitude and a [height]
    between 0 and [2^53], the scaling is from a zero baseline.  The call
    returns markup with one point per element, whose point for element
    [val] at index [i] has the floats [i / len(data) * width] as x and
    [(max - val) / max * height] as y; the maximum is drawn at the top
    edge ([y = 0.0]), a value of 0 at the bottom edge ([y = height]), and
    every element at a y between 0 and [height]. *)
Theorem sparkline_svg_scales_from_zero (float_repr : Binary64.float -> string)
    (data : list Z) (add_embed : bool) (params : Params) (lo hi : Z) :
  In lo data -> In hi data ->
  (forall v, In v data -> lo <= v <= hi) ->
  lo < hi -> 0 <= lo ->
  let width := params_get (p_width params) (len data) in
  let height := params_get (p_height params) 10 in
  let stroke := params_get (p_stroke params) "#8cc665"%string in
  let weight := params_get (p_weight params) 2 in
  Z.abs width <= 2 ^ 53 -> 0 <= height <= 2 ^ 53 ->
  Z.abs weight <= 2 ^ 53 ->
  let x := fun i : Z =>
             Binary64.float_mul (Binary64.nearest_quotient i (len data))
               (Binary64.nearest_int width) in
  let y := fun val : Z =>
             Binary64.float_mul (Binary64.nearest_quotient (hi - val) hi)
               (Binary64.nearest_int height) in
  let points :=
    map (fun iv => (float_repr (x (fst iv)) ++ ","
                      ++ float_repr (y (snd iv)))%string)
      (enumerate data) in
  let style := ("fill: none; stroke: " ++ stroke ++ "; stroke-width: "
                  ++ str_of_int weight)%string in
  let svg := ("<svg height=" ++ dquote ++ str_of_int height ++ dquote
                ++ " width=" ++ dquote ++ str_of_int width ++ dquote
                ++ "><polyline points=" ++ dquote ++ join " " points
                ++ dquote ++ " style=" ++ dquote ++ style ++ dquote
                ++ " /></svg>")%string in
  Binary64.sparkline_svg float_repr data add_embed params
  = Ok (if add_embed then ("<embed>" ++ svg ++ "</embed>")%string else svg)
  /\ List.length points = List.length data
  /\ y hi = Binary64.Finite false 0
  /\ y 0 = Binary64.Finite false (inject_Z height)
  /\ (forall val, In val data ->
        exists m, y val = Binary64.Finite false m
                  /\ (0 <= m <= inject_Z height)%Q).
Proof.
  intros Hlo Hhi Hall Hlt H0 width height stroke weight Hw Hh Hg x y points
    style svg.
  assert (forall val, 0 <= val <= hi ->
            exists m, y val = Binary64.Finite false m
                      /\ (0 <= m <= inject_Z height)%Q) as Hy.
  { intros val Hval. unfold y.
    destruct (Binary64Facts.unit_quotient (hi - val) hi) as (q & -> & Hq);
      [lia | lia |].
    apply Binary64Facts.scaled_y_rounded; assumption. }
  split; [|split; [|split; [|split]]].
  - unfold Binary64.sparkline_svg. fold width height stroke weight.
    rewrite (Binary64Facts.scaled_points_rounded data width height lo hi)
      by (auto; lia).
    cbn [rbind]. unfold Binary64.markup. rewrite map_map. reflexivity.
  - unfold points. rewrite length_map. apply enumerate_from_length.
  - unfold y. replace (hi - hi) with 0 by lia.
    unfold Binary64.nearest_quotient.
    assert ((hi <? 0) = false) as -> by lia.
    rewrite Binary64Facts.nearest_int_exact by lia.
    assert ((height <? 0) = false) as -> by lia.
    cbn [Z.ltb Z.compare xorb Binary64.float_mul].
    rewrite (Binary64Facts.round_zero (Qabs (inject_Z 0 / inject_Z hi)))
      by (unfold Qdiv; rewrite Qmult_0_l; reflexivity).
    rewrite (Binary64Facts.round_zero (0 * _))
      by (rewrite Qmult_0_l; reflexivity).
    reflexivity.
  - unfold y. replace (hi - 0) with hi by lia.
    unfold Binary64.nearest_quotient.
    assert ((hi <? 0) = false) as -> by lia.
    rewrite Binary64Facts.nearest_int_exact by lia.
    assert ((height <? 0) = false) as -> by lia.
    rewrite Z.abs_eq by lia.
    assert (Qabs (inject_Z hi / inject_Z hi) == 1)%Q as E1.
    { rewrite Qabs_pos by (apply Binary64Facts.fraction_nonneg; lia).
      apply Qmult_inv_r. intro E. unfold Qeq in E. simpl in E. lia. }
    rewrite (Binary64Facts.round_compat _ 1 (Qabs_nonneg _) E1).
    rewrite Binary64Facts.round_one.
    cbn [xorb Binary64.float_mul].
    assert (0 <= inject_Z height)%Q as Hq by (unfold Qle; simpl; lia).
    assert (0 <= 1 * inject_Z height)%Q as Hq1
      by (rewrite Qmult_1_l; exact Hq).
    rewrite (Binary64Facts.round_compat _ (inject_Z height) Hq1
               (Qmult_1_l _)).
    rewrite Binary64Facts.round_int by lia.
    rewrite <- (Binary64Facts.round_int height) at 1 by lia.
    rewrite Binary64Facts.small_fits;
      [reflexivity | exact Hq | rewrite <- Zle_Qle; lia].
  - intros val Hin. apply Hy. specialize (Hall val Hin). lia.
Qed.

Lemma sparkline_svg_scales_from_zero_witness :
  Binary64.sparkline_svg Fixture.float_repr [0; 2; 4] false no_params
  = Ok ("<svg height=" ++ dquote ++ "10" ++ dquote
          ++ " width=" ++ dquote ++ "3" ++ dquote
          ++ "><polyline points=" ++ dquote ++ "0.0,10.0 1.0,5.0 2.0,0.0"
          ++ dquote ++ " style=" ++ dquote
          ++ "fill: none; stroke: #8cc665; stroke-width: 2" ++ dquote
          ++ " /></svg>")%string
  /\ Binary64.float_mul (Binary64.nearest_quotient (4 - 4) 4)
       (Binary64.nearest_int 10) = Binary64.Finite false 0
  /\ Binary64.float_mul (Binary64.nearest_quotient (4 - 0) 4)
       (Binary64.nearest_int 10) = Binary64.Finite false 10
  /\ Binary64.float_mul (Binary64.nearest_quotient (4 - 2) 4)
       (Binary64.nearest_int 10) = Binary64.Finite false 5.
Proof.
  destruct (sparkline_svg_scales_from_zero Fixture.float_repr [0; 2; 4] false
              no_params 0 4) as (H & _ & Htop & Hbottom & _).
  - simpl; auto.
  - simpl; auto.
  - simpl; intros v [<- | [<- | [<- | []]]]; lia.
  - lia.
  - lia.
  - vm_compute; discriminate.
  - vm_compute; split; discriminate.
  - vm_compute; discriminate.
  - split; [rewrite H; vm_compute; reflexivity |].
    split; [exact Htop |]. split; [exact Hbottom |].
    vm_compute. reflexivity.
Defined.

(* ------------------------------------------------------------------ *)
(** ** The memoised resolver *)

Lemma exn_eqb_refl (e : exn) : exn_eqb e e = true.
Proof. destruct e; simpl; auto using Z.eqb_refl. Qed.

Lemma value_eqb_refl : forall v : value, value_eqb v v = true.
Proof.
  fix IH 1. intros [ | b | z | s | t | l | d | r | z]; simpl.
  - reflexivity.
  - apply Bool.eqb_reflx.
  - apply Z.eqb_refl.
  - apply String.eqb_refl.
  - apply Z.eqb_refl.
  - induction l as [|x l IHl]; [reflexivity |].
    rewrite (IH x). simpl. exact IHl.
  - induction d as [|[k x] d IHd]; [reflexivity |].
    rewrite String.eqb_refl, (IH x). simpl. exact IHd.
  - destruct r as [n | e]; simpl; [apply Z.eqb_refl | apply exn_eqb_refl].
  - apply Z.eqb_refl.
Qed.

Lemma key_eqb_refl (k : Key) : key_eqb k k = true.
Proof.
  unfold key_eqb.
  rewrite Nat.eqb_refl, String.eqb_refl, !value_eqb_refl.
  reflexivity.
Qed.

Lemma accessor_calls_app (k : Key) (t t' : list event) :
  accessor_calls k (t ++ t') = (accessor_calls k t + accessor_calls k t')%nat.
Proof. unfold accessor_calls. rewrite filter_app, length_app. reflexivity. Qed.

(** A call that returns leaves its result in the cache. *)
Lemma cached_stores (f : Key -> result value) (k : Key) (st st1 : State)
    (v : value) :
  cached f k st = (Ok v, st1) -> cache_get k (cache st1) = Some v.
Proof.
  unfold cached. destruct (cache_get k (cache st)) as [v0 |] eqn:Hget.
  - intro H. inversion H; subst. exact Hget.
  - destruct (f k) as [v0 | e]; intro H; inversion H; subst.
    simpl. rewrite key_eqb_refl. reflexivity.
Qed.

(** C1, as stated, fails in two ways.  When the first call raises, the
    failure is not cached and the second call runs the accessor again:
    here the star count of [gamma] is rate limited twice.  And the cache
    is keyed by the call as written, not by the parameters it binds:
    [get_repo_attr(alpha, "stargazers_count")] and
    [get_repo_attr(alpha, "stargazers_count", False)] bind the same
    [(repo, name, total, args, kwargs)], yet the second runs the accessor
    again and returns what the attribute has become. *)
Lemma get_repo_attr_failure_retried :
  (exists st1 st2,
     get_repo_attr Demo.heap Demo.gamma "stargazers_count" [] []
       empty_state = (Raise RateLimitExceededException, st1)
     /\ get_repo_attr Demo.heap Demo.gamma "stargazers_count" [] [] st1
        = (Raise RateLimitExceededException, st2)
     /\ accessor_calls (mkKey 3 "stargazers_count" [] []) (trace st2)
        = 2%nat)
  /\ (exists st1 st2,
        get_repo_attr Demo.heap Demo.alpha "stargazers_count" [] []
          empty_state = (Ok (VInt 10), st1)
        /\ get_repo_attr Demo.heap_later Demo.alpha "stargazers_count"
             [VBool false] [] st1 = (Ok (VInt 999), st2)
        /\ parameter 0 "total" (VBool false) [VBool false] []
           = parameter 0 "total" (VBool false) [] []
        /\ parameter 1 "args" (VList []) [VBool false] []
           = parameter 1 "args" (VList []) [] []
        /\ parameter 2 "kwargs" (VDict []) [VBool false] []
           = parameter 2 "kwargs" (VDict []) [] []
        /\ trace st2
           = [Ev_accessor (mkKey 1 "stargazers_count" [] []);
              Ev_accessor (mkKey 1 "stargazers_count" [VBool false] [])]).
Proof. split; do 2 eexists; repeat split. Qed.

(** C1, amended: when a call of [get_repo_attr] returns a value, a second
    call written the same way (the same repository and name, the same
    further positional arguments, the same keyword arguments in the same
    order) returns that value and leaves the state as it is, so it does
    not run the accessor, whatever the attribute has become in between;
    the first call has run the accessor at most once. *)
Theorem get_repo_attr_memoised (h1 h2 : Heap) (repo : Repository)
    (name : string) (pos : list value) (kw : list (string * value))
    (st st1 : State) (v : value) :
  get_repo_attr h1 repo name pos kw st = (Ok v, st1) ->
  get_repo_attr h2 repo name pos kw st1 = (Ok v, st1)
  /\ (trace st1 = trace st
      \/ trace st1
         = trace st ++ [Ev_accessor (mkKey (repo_id repo) name pos kw)]).
Proof.
  unfold get_repo_attr. intro H. split.
  - apply cached_stores in H. unfold cached. rewrite H. reflexivity.
  - unfold cached in H.
    destruct (cache_get _ (cache st)) as [v0 |].
    + inversion H; subst. left. reflexivity.
    + destruct (get_repo_attr_body h1 _) as [v0 | e]; inversion H; subst.
      right. reflexivity.
Qed.

Lemma get_repo_attr_memoised_witness :
  exists st1,
    get_repo_attr Demo.heap Demo.alpha "stargazers_count" []
      [("total"%string, VBool false)] empty_state = (Ok (VInt 10), st1)
    /\ get_repo_attr Demo.heap_later Demo.alpha "stargazers_count" []
         [("total"%string, VBool false)] st1 = (Ok (VInt 10), st1)
    /\ get_repo_attr_body Demo.heap_later
         (mkKey 1 "stargazers_count" [] [("total"%string, VBool false)])
       = Ok (VInt 999)
    /\ trace st1
       = [Ev_accessor (mkKey 1 "stargazers_count" []
                         [("total"%string, VBool false)])].
Proof.
  eexists. split; [reflexivity |].
  destruct (get_repo_attr_memoised Demo.heap Demo.heap_later Demo.alpha
              "stargazers_count" [] [("total"%string, VBool false)]
              empty_state _ (VInt 10) eq_refl)
    as [H1 H2].
  split; [exact H1 |]. split; reflexivity.
Defined.

(* ------------------------------------------------------------------ *)
(** ** Sorting by key *)

Lemma string_leb_trans (s1 s2 s3 : string) :
  String.leb s1 s2 = true -> String.leb s2 s3 = true -> String.leb s1 s3 = true.
Proof.
  unfold String.leb. revert s2 s3.
  induction s1 as [|a s1 IH]; intros [|b s2] [|c s3]; simpl; auto;
    try discriminate.
  destruct (Ascii.compare a b) eqn:Hab; try discriminate;
    destruct (Ascii.compare b c) eqn:Hbc; try discriminate; intros H1 H2.
  - apply Ascii.compare_eq_iff in Hab, Hbc. subst.
    assert (Ascii.compare c c = Eq) as ->
      by (unfold Ascii.compare; apply N.compare_refl).
    eapply IH; eauto.
  - apply Ascii.compare_eq_iff in Hab. subst. rewrite Hbc. reflexivity.
  - apply Ascii.compare_eq_iff in Hbc. subst. rewrite Hab. reflexivity.
  - assert (Ascii.compare a c = Lt) as ->; [|reflexivity].
    unfold Ascii.compare in *. apply N.compare_lt_iff.
    apply N.compare_lt_iff in Hab, Hbc. eapply N.lt_trans; eauto.
Qed.

Section SortedFacts.

Context {A : Type}.
Variable key : A -> string.

Lemma insert_by_perm (x : A) (l : list A) :
  Permutation (x :: l) (insert_by key x l).
Proof.
  induction l as [|y l IH]; simpl; [reflexivity |].
  destruct (String.leb (key x) (key y)); [reflexivity |].
  rewrite perm_swap. apply perm_skip. exact IH.
Qed.

Lemma sorted_perm (l : list A) : Permutation l (sorted key l).
Proof.
  induction l as [|x l IH]; simpl; [reflexivity |].
  rewrite <- insert_by_perm. apply perm_skip. exact IH.
Qed.

Lemma insert_by_sorted (x : A) (l : list A) :
  StronglySorted (key_le key) l -> StronglySorted (key_le key) (insert_by key x l).
Proof.
  induction 1 as [|y l Hs IH Hall]; simpl.
  - constructor; constructor.
  - destruct (String.leb (key x) (key y)) eqn:Hxy.
    + constructor; [constructor; assumption |].
      constructor; [exact Hxy |].
      eapply Forall_impl; [|exact Hall].
      intros z Hz. unfold key_le in *. eapply string_leb_trans; eauto.
    + constructor; [exact IH |].
      assert (key_le key y x) as Hyx.
      { unfold key_le. destruct (String.leb_total (key x) (key y)); congruence. }
      eapply Permutation_Forall; [apply insert_by_perm |].
      constructor; assumption.
Qed.

Lemma sorted_sorted (l : list A) : StronglySorted (key_le key) (sorted key l).
Proof.
  induction l as [|x l IH]; simpl; [constructor |].
  apply insert_by_sorted. exact IH.
Qed.

End SortedFacts.

(* ------------------------------------------------------------------ *)
(** ** The generator *)

Lemma scan_loop_yields (body : Repository -> M Entry) (repos : list Repository)
    (st : State) (it : item) :
  In it (yields (fst (scan_loop body repos st))) ->
  exists repo entry, it = YieldEntry repo entry /\ In repo repos.
Proof.
  revert st; induction repos as [|r repos IH]; intro st; simpl; [intros [] |].
  destruct (body r st) as [[entry | e] st']; simpl; [|intros []].
  specialize (IH st'). destruct (scan_loop body repos st') as [out st''].
  simpl in *. intros [<- | Hin].
  - exists r, entry. auto.
  - destruct (IH Hin) as (repo & en & -> & Hr). exists repo, en. auto.
Qed.

Lemma filter_comprehension_In {A : Type} (p : A -> result bool)
    (l l' : list A) (x : A) :
  filter_comprehension p l = Ok l' -> In x l' -> p x = Ok true /\ In x l.
Proof.
  revert l'; induction l as [|a l IH]; intros l'; simpl.
  - intro H; inversion H; subst. intros [].
  - destruct (p a) as [b | e] eqn:Hp; simpl; [|discriminate].
    destruct (filter_comprehension p l) as [rest | e]; simpl; [|discriminate].
    intro H; inversion H; subst; clear H. destruct b.
    + intros [<- | Hin]; [auto |]. destruct (IH rest eq_refl Hin). auto.
    + intro Hin. destruct (IH rest eq_refl Hin). auto.
Qed.

Section ScannerFacts.

Variable float_repr : Q -> string.
Variable object_str : value -> string.
Variable re_match : string -> string -> result bool.
Variable g : Github.
Variable h : Heap.

(** C6: when none or more than one of [org_name], [user_name] and
    [owner_name] is supplied, the generator raises [AssertionError] at its
    first step, yields nothing and leaves the state as it was: no request
    has been made. *)
Theorem scan_repos_ambiguous_owner
    (org_name user_name owner_name repo_name_pat : option string)
    (fields : option (list string)) (callbacks : list Callback) (st : State) :
  len (filter truthy_str [org_name; user_name; owner_name]) <> 1 ->
  scan_repos float_repr object_str re_match g h org_name user_name owner_name
    repo_name_pat fields callbacks st
  = (mkRun [] (Some AssertionError), st).
Proof.
  intro H. unfold scan_repos.
  destruct (Z.eqb_spec (len (filter truthy_str [org_name; user_name; owner_name])) 1);
    [contradiction | reflexivity].
Qed.

(** C2: when the owner resolves and its repositories are listed, the
    first value yielded is the whole listing sorted by lower-cased name,
    the same for every name pattern. *)
Theorem scan_repos_first_yield
    (org_name user_name owner_name repo_name_pat : option string)
    (fields : option (list string)) (callbacks : list Callback)
    (st st1 : State) (owner : Owner) (listed : list Repository) :
  len (filter truthy_str [org_name; user_name; owner_name]) = 1 ->
  resolve_owner g org_name user_name owner_name st = (Ok owner, st1) ->
  get_repos owner = Ok listed ->
  let repos := sorted (fun r => lower (r_name r)) listed in
  (exists rest,
      yields (fst (scan_repos float_repr object_str re_match g h org_name
                     user_name owner_name repo_name_pat fields callbacks st))
      = YieldRepos repos :: rest)
  /\ Permutation listed repos
  /\ StronglySorted (key_le (fun r => lower (r_name r))) repos.
Proof.
  intros Hone Hown Hrepos repos. split; [|split].
  - unfold scan_repos. rewrite Hone, Hown. simpl.
    unfold bind, log, lift. simpl. rewrite Hrepos. fold repos.
    destruct (if truthy_str repo_name_pat then _ else _) as [matching | e].
    + destruct (scan_loop _ matching _) as [r st3]. simpl. eauto.
    + simpl. eauto.
  - apply sorted_perm.
  - apply sorted_sorted.
Qed.

(** C7: with a name pattern, a record is yielded only for a repository
    whose name [re.match] accepts, that is, matches from its first
    character on; a repository whose name it does not accept yields no
    record. *)
Theorem scan_repos_records_match
    (org_name user_name owner_name : option string) (pattern : string)
    (fields : option (list string)) (callbacks : list Callback) (st : State) :
  pattern <> EmptyString ->
  let out := fst (scan_repos float_repr object_str re_match g h org_name
                    user_name owner_name (Some pattern) fields callbacks st) in
  (forall repo entry,
      In (YieldEntry repo entry) (yields out) ->
      re_match pattern (r_name repo) = Ok true)
  /\ (forall repo,
         re_match pattern (r_name repo) <> Ok true ->
         forall entry, ~ In (YieldEntry repo entry) (yields out)).
Proof.
  intros Hpat out.
  assert (forall repo entry,
             In (YieldEntry repo entry) (yields out) ->
             re_match pattern (r_name repo) = Ok true) as Hmatch.
  { intros repo entry. unfold out, scan_repos.
    destruct (negb _); [intros [] |].
    destruct (resolve_owner _ _ _ _ _) as [[owner | e] st1]; [|intros []].
    destruct (bind _ _ st1) as [[listed | e] st2]; [|intros []].
    assert (truthy_str (Some pattern) = true) as ->.
    { simpl. destruct (String.eqb_spec pattern EmptyString);
        [contradiction | reflexivity]. }
    simpl params_get.
    destruct (filter_comprehension _ _) as [matching | e] eqn:Hf.
    - destruct (scan_loop _ matching st2) as [r st3] eqn:Hl. simpl.
      intros [Hin | Hin]; [discriminate |].
      assert (In (YieldEntry repo entry)
                (yields (fst (scan_loop
                                (build_entry float_repr object_str h owner
                                   match fields with
                                   | Some (f :: fs) => f :: fs
                                   | _ => default_fields
                                   end callbacks) matching st2)))) as Hin'
        by (rewrite Hl; exact Hin).
      apply scan_loop_yields in Hin'.
      destruct Hin' as (repo' & entry' & Heq & Hr). inversion Heq; subst.
      eapply filter_comprehension_In in Hf; [|exact Hr]. apply Hf.
    - simpl. intros [Hin | []]. discriminate. }
  split; [exact Hmatch |].
  intros repo Hno entry Hin. apply Hno. eapply Hmatch; eauto.
Qed.

End ScannerFacts.

Lemma scan_repos_ambiguous_owner_witness :
  scan_repos Demo.float_repr Demo.object_str Demo.re_match Demo.github
    Demo.heap (Some "python"%string) (Some "octocat"%string) None None None []
    empty_state
  = (mkRun [] (Some AssertionError), empty_state).
Proof.
  apply (scan_repos_ambiguous_owner Demo.float_repr Demo.object_str
           Demo.re_match Demo.github Demo.heap).
  vm_compute. discriminate.
Defined.

Lemma scan_repos_first_yield_witness :
  (exists rest,
      yields (fst (scan_repos Demo.float_repr Demo.object_str Demo.re_match
                     Demo.github Demo.heap None None (Some "octocat"%string)
                     (Some "al"%string) None [] empty_state))
      = YieldRepos [Demo.alpha; Demo.Beta; Demo.gamma] :: rest)
  /\ Permutation [Demo.gamma; Demo.Beta; Demo.alpha]
       [Demo.alpha; Demo.Beta; Demo.gamma]
  /\ StronglySorted (key_le (fun r => lower (r_name r)))
       [Demo.alpha; Demo.Beta; Demo.gamma].
Proof.
  exact (scan_repos_first_yield Demo.float_repr Demo.object_str Demo.re_match
           Demo.github Demo.heap None None (Some "octocat"%string)
           (Some "al"%string) None [] empty_state _ Demo.octocat
           [Demo.gamma; Demo.Beta; Demo.alpha] eq_refl eq_refl eq_refl).
Defined.

Lemma scan_repos_records_match_witness :
  Demo.re_match "al" (r_name Demo.alpha) = Ok true
  /\ forall entry,
       ~ In (YieldEntry Demo.Beta entry)
           (yields (fst (scan_repos Demo.float_repr Demo.object_str
                           Demo.re_match Demo.github Demo.heap None None
                           (Some "octocat"%string) (Some "al"%string)
                           (Some ["name"; "stargazers_count"]%string) []
                           empty_state))).
Proof.
  destruct (scan_repos_records_match Demo.float_repr Demo.object_str
              Demo.re_match Demo.github Demo.heap None None
              (Some "octocat"%string) "al"%string
              (Some ["name"; "stargazers_count"]%string) [] empty_state)
    as [Hyes Hno].
  - discriminate.
  - split.
    + eapply (Hyes Demo.alpha). simpl. right. left. reflexivity.
    + apply Hno. discriminate.
Defined.

(** Past the first [yield] the generator is the loop: it yields what the
    loop yields and ends the way the loop ends. *)
Lemma scan_repos_runs_loop (float_repr : Q -> string)
    (object_str : value -> string)
    (re_match : string -> string -> result bool) (g : Github) (h : Heap)
    (org_name user_name owner_name repo_name_pat : option string)
    (fields : option (list string)) (callbacks : list Callback)
    (st st1 : State) (owner : Owner) (listed matching : list Repository) :
  len (filter truthy_str [org_name; user_name; owner_name]) = 1 ->
  resolve_owner g org_name user_name owner_name st = (Ok owner, st1) ->
  get_repos owner = Ok listed ->
  (if truthy_str repo_name_pat
   then filter_comprehension
          (fun r => re_match (params_get repo_name_pat EmptyString) (r_name r))
          (sorted (fun r => lower (r_name r)) listed)
   else Ok (sorted (fun r => lower (r_name r)) listed)) = Ok matching ->
  let loop :=
    scan_loop
      (build_entry float_repr object_str h owner
         match fields with
         | Some (f :: fs) => f :: fs
         | _ => default_fields
         end callbacks)
      matching
      (mkState (cache st1) (trace st1 ++ [Ev_get_repos (login owner)])) in
  scan_repos float_repr object_str re_match g h org_name user_name owner_name
    repo_name_pat fields callbacks st
  = (mkRun (YieldRepos (sorted (fun r => lower (r_name r)) listed)
              :: yields (fst loop))
       (raised (fst loop)),
     snd loop).
Proof.
  intros Hone Hown Hrepos Hfilter loop. unfold scan_repos.
  rewrite Hone, Hown. simpl. unfold bind, log, lift. simpl.
  rewrite Hrepos, Hfilter. fold loop. destruct loop as [r st3]. reflexivity.
Qed.

(* ------------------------------------------------------------------ *)
(** ** The loop body *)

Lemma keys_dict_set (k : string) (v : value) (d : Entry) :
  keys (dict_set k v d)
  = keys d ++ (if existsb (String.eqb k) (keys d) then [] else [k]).
Proof.
  unfold keys. induction d as [|[k' v'] d IH]; simpl; [reflexivity |].
  rewrite (String.eqb_sym k k').
  destruct (String.eqb_spec k' k) as [-> | Hne]; simpl.
  - rewrite app_nil_r. reflexivity.
  - rewrite IH. reflexivity.
Qed.

Lemma keys_dict_set_new (k : string) (v : value) (d : Entry) :
  ~ In k (keys d) -> keys (dict_set k v d) = keys d ++ [k].
Proof.
  intro H. rewrite keys_dict_set.
  destruct (existsb (String.eqb k) (keys d)) eqn:E; [|reflexivity].
  apply existsb_exists in E. destruct E as (x & Hx & Heq).
  apply String.eqb_eq in Heq. subst. contradiction.
Qed.

Lemma keys_dict_update (d other : Entry) :
  exists extra, keys (dict_update d other) = keys d ++ extra.
Proof.
  unfold dict_update. revert d.
  induction other as [|[k v] other IH]; intro d; simpl.
  - exists []. rewrite app_nil_r. reflexivity.
  - destruct (IH (dict_set k v d)) as [extra Hx]. rewrite Hx, keys_dict_set.
    rewrite <- app_assoc. eauto.
Qed.

Lemma dict_get_dict_set_same (k : string) (v : value) (d : Entry) :
  dict_get k (dict_set k v d) = Some v.
Proof.
  induction d as [|[k' v'] d IH]; simpl.
  - rewrite String.eqb_refl. reflexivity.
  - destruct (String.eqb k' k) eqn:E; simpl; rewrite E; auto.
Qed.

Lemma dict_get_dict_set_other (k k0 : string) (v : value) (d : Entry) :
  k0 <> k -> dict_get k (dict_set k0 v d) = dict_get k d.
Proof.
  intro Hne. induction d as [|[k' v'] d IH]; simpl.
  - destruct (String.eqb_spec k0 k); [contradiction | reflexivity].
  - destruct (String.eqb_spec k' k0) as [-> | Hne']; simpl.
    + destruct (String.eqb_spec k0 k); [contradiction | reflexivity].
    + rewrite IH. reflexivity.
Qed.

Section BodyFacts.

Variable float_repr : Q -> string.
Variable object_str : value -> string.
Variable h : Heap.
Variable fields : list string.

(** One assignment [if name in fields: entry[name] = expr]. *)
Lemma field_ok (name : string) (expr : M value) (entry entry' : Entry)
    (st st' : State) :
  field fields name expr entry st = (Ok entry', st') ->
  if contains name fields
  then exists v, expr st = (Ok v, st') /\ entry' = dict_set name v entry
  else entry' = entry /\ st' = st.
Proof.
  unfold field. destruct (contains name fields).
  - unfold bind, ret. destruct (expr st) as [[v | e] st1]; intro H;
      inversion H; subst. eauto.
  - unfold ret. intro H; inversion H; subst. auto.
Qed.

Lemma assign_fields_keys (table : list (string * M value)) :
  NoDup (map fst table) ->
  forall (entry entry' : Entry) (st st' : State),
    (forall n, In n (map fst table) -> ~ In n (keys entry)) ->
    assign_fields fields table entry st = (Ok entry', st') ->
    keys entry'
    = keys entry ++ filter (fun k => contains k fields) (map fst table).
Proof.
  unfold assign_fields.
  induction table as [|[n expr] table IH]; intros Hnd entry entry' st st' Hfresh.
  - simpl. unfold ret. intro H; inversion H; subst.
    rewrite app_nil_r. reflexivity.
  - simpl. inversion Hnd as [|? ? Hn Hnd']; subst.
    unfold bind at 1.
    destruct (field fields n expr entry st) as [[entry1 | e] st1] eqn:Hf;
      [|discriminate].
    intro Hrest. apply field_ok in Hf.
    assert (keys entry1
            = keys entry ++ (if contains n fields then [n] else [])) as Hk.
    { destruct (contains n fields).
      - destruct Hf as (v & _ & ->). apply keys_dict_set_new.
        apply Hfresh. now left.
      - destruct Hf as [-> _]. rewrite app_nil_r. reflexivity. }
    apply IH in Hrest; auto.
    + rewrite Hrest, Hk, <- app_assoc. f_equal.
      destruct (contains n fields); reflexivity.
    + intros m Hm Hin. rewrite Hk in Hin. apply in_app_or in Hin.
      destruct Hin as [Hin | Hin].
      * apply (Hfresh m); [now right | exact Hin].
      * destruct (contains n fields); [|destruct Hin].
        destruct Hin as [<- | []]. contradiction.
Qed.

Lemma assign_fields_dict_get (k : string) (table : list (string * M value)) :
  ~ In k (map fst table) ->
  forall (entry entry' : Entry) (st st' : State),
    assign_fields fields table entry st = (Ok entry', st') ->
    dict_get k entry' = dict_get k entry.
Proof.
  unfold assign_fields.
  induction table as [|[n expr] table IH]; intros Hk entry entry' st st'.
  - simpl. unfold ret. intro H; inversion H; subst. reflexivity.
  - simpl. unfold bind at 1.
    destruct (field fields n expr entry st) as [[entry1 | e] st1] eqn:Hf;
      [|discriminate].
    intro Hrest. apply IH in Hrest; [|intro; apply Hk; now right].
    rewrite Hrest. apply field_ok in Hf. destruct (contains n fields).
    + destruct Hf as (v & _ & ->). apply dict_get_dict_set_other.
      intro; subst. apply Hk. now left.
    + destruct Hf as [-> _]. reflexivity.
Qed.

Lemma apply_callbacks_keys (callbacks : list Callback) (repo : Repository) :
  forall (entry entry' : Entry) (st st' : State),
    apply_callbacks callbacks repo entry st = (Ok entry', st') ->
    exists extra,
      keys entry' = keys entry ++ extra /\ (callbacks = [] -> extra = []).
Proof.
  unfold apply_callbacks.
  induction callbacks as [|cb cbs IH]; intros entry entry' st st'; simpl.
  - unfold ret. intro H; inversion H; subst. exists [].
    rewrite app_nil_r. auto.
  - unfold bind at 1. unfold bind at 1.
    destruct (cb repo st) as [[other | e] st1]; [|discriminate].
    unfold ret at 1. intro Hrest. apply IH in Hrest.
    destruct Hrest as (extra & Hx & _).
    destruct (keys_dict_update entry other) as [extra0 Hx0].
    exists (extra0 ++ extra). rewrite Hx, Hx0, app_assoc.
    split; [reflexivity | discriminate].
Qed.

Lemma bind_ext {A B : Type} (m : M A) (k1 k2 : A -> M B) (st : State) :
  (forall a s, k1 a s = k2 a s) -> bind m k1 st = bind m k2 st.
Proof.
  intro H. unfold bind. destruct (m st) as [[a | e] s]; [apply H | reflexivity].
Qed.

Lemma for_each_cons_then {A : Type} (a : A) (l : list A)
    (body : A -> Entry -> M Entry) (entry : Entry) (k : Entry -> M Entry)
    (st : State) :
  bind (for_each (a :: l) body entry) k st
  = bind (body a entry) (fun entry' => bind (for_each l body entry') k) st.
Proof.
  simpl. unfold bind. destruct (body a entry st) as [[e1 | e] s1]; reflexivity.
Qed.

Lemma for_each_app_then {A : Type} (l1 l2 : list A)
    (body : A -> Entry -> M Entry) (entry : Entry) (k : Entry -> M Entry)
    (st : State) :
  bind (for_each (l1 ++ l2) body entry) k st
  = bind (for_each l1 body entry)
      (fun entry' => bind (for_each l2 body entry') k) st.
Proof.
  revert entry st; induction l1 as [|a l1 IH]; intros entry st.
  - reflexivity.
  - rewrite <- app_comm_cons, !for_each_cons_then.
    apply bind_ext. intros e1 s1. apply IH.
Qed.

Lemma for_each_map {A B : Type} (f : A -> B) (l : list A)
    (body : B -> Entry -> M Entry) (entry : Entry) (st : State) :
  for_each (map f l) body entry st
  = for_each l (fun a => body (f a)) entry st.
Proof.
  revert entry st; induction l as [|a l IH]; intros entry st; simpl.
  - reflexivity.
  - unfold bind. destruct (body (f a) entry st) as [[entry1 | e] st1];
      [apply IH | reflexivity].
Qed.

Lemma for_each_map_app_then {A B : Type} (f : A -> B) (l : list A)
    (l2 : list B) (body : B -> Entry -> M Entry) (entry : Entry)
    (k : Entry -> M Entry) (st : State) :
  bind (for_each (map f l ++ l2) body entry) k st
  = bind (for_each l (fun a => body (f a)) entry)
      (fun entry' => bind (for_each l2 body entry') k) st.
Proof.
  rewrite for_each_app_then. unfold bind at 1 3.
  rewrite for_each_map. reflexivity.
Qed.

(** The loop body is the table of built-in fields, run in order, followed
    by the callbacks. *)
Lemma build_entry_dispatch (owner : Owner) (callbacks : list Callback)
    (repo : Repository) (st : State) :
  build_entry float_repr object_str h owner fields callbacks repo st
  = bind (assign_fields fields (dispatch float_repr object_str h owner repo) [])
      (apply_callbacks callbacks repo) st.
Proof.
  unfold build_entry, assign_fields, dispatch.
  generalize (@nil (string * value)) as entry. revert st.
  cbn [app].
  repeat (intros;
          first [ rewrite for_each_cons_then
                | rewrite for_each_map_app_then ];
          apply bind_ext).
  intros. reflexivity.
Qed.

End BodyFacts.

Lemma dispatch_order_names (float_repr : Q -> string)
    (object_str : value -> string) (h : Heap) (owner : Owner)
    (repo : Repository) :
  map fst (dispatch float_repr object_str h owner repo) = dispatch_order.
Proof. reflexivity. Qed.

Lemma dispatch_order_NoDup : NoDup dispatch_order.
Proof.
  vm_compute.
  repeat (constructor;
          [simpl; intro H;
           repeat (destruct H as [H | H]; [discriminate H |]); exact H |]).
  constructor.
Qed.

Lemma scan_loop_yields_body (body : Repository -> M Entry)
    (repos : list Repository) (st : State) (repo : Repository)
    (entry : Entry) :
  In (YieldEntry repo entry) (yields (fst (scan_loop body repos st))) ->
  exists s1 s2, body repo s1 = (Ok entry, s2).
Proof.
  revert st; induction repos as [|r repos IH]; intro st; simpl; [intros [] |].
  destruct (body r st) as [[entry0 | e] st'] eqn:Hb; simpl; [|intros []].
  specialize (IH st'). destruct (scan_loop body repos st') as [out st''].
  simpl in *. intros [Heq | Hin]; [|auto].
  inversion Heq; subst. eauto.
Qed.

Section RecordFacts.

Variable float_repr : Q -> string.
Variable object_str : value -> string.
Variable re_match : string -> string -> result bool.
Variable g : Github.
Variable h : Heap.

(** A record comes from a run of the loop body that returned it. *)
Lemma scan_repos_yields_entry
    (org_name user_name owner_name repo_name_pat : option string)
    (fields : option (list string)) (callbacks : list Callback) (st : State)
    (repo : Repository) (entry : Entry) :
  In (YieldEntry repo entry)
    (yields (fst (scan_repos float_repr object_str re_match g h org_name
                    user_name owner_name repo_name_pat fields callbacks st))) ->
  exists owner s1 s2,
    build_entry float_repr object_str h owner
      match fields with
      | Some (f :: fs) => f :: fs
      | _ => default_fields
      end callbacks repo s1 = (Ok entry, s2).
Proof.
  unfold scan_repos.
  destruct (negb _); [intros [] |].
  destruct (resolve_owner _ _ _ _ _) as [[owner | e] st1]; [|intros []].
  destruct (bind _ _ st1) as [[listed | e] st2]; [|intros []].
  destruct (if truthy_str repo_name_pat then _ else _) as [matching | e].
  - destruct (scan_loop _ matching st2) as [r st3] eqn:Hl. simpl.
    intros [Hin | Hin]; [discriminate |].
    assert (In (YieldEntry repo entry)
              (yields (fst (scan_loop
                              (build_entry float_repr object_str h owner
                                 match fields with
                                 | Some (f :: fs) => f :: fs
                                 | _ => default_fields
                                 end callbacks) matching st2)))) as Hin'
      by (rewrite Hl; exact Hin).
    apply scan_loop_yields_body in Hin'. destruct Hin' as (s1 & s2 & Hb).
    eauto.
  - simpl. intros [Hin | []]. discriminate.
Qed.

(** C4, amended: the keys of a record follow the order in which the loop
    body tests the built-in fields, not the order of the supplied list:
    they are the built-in names that occur in the list, in dispatch order,
    followed by whatever keys the callbacks add. *)
Theorem scan_repos_record_keys
    (org_name user_name owner_name repo_name_pat : option string)
    (f : string) (fs : list string) (callbacks : list Callback) (st : State)
    (repo : Repository) (entry : Entry) :
  In (YieldEntry repo entry)
    (yields (fst (scan_repos float_repr object_str re_match g h org_name
                    user_name owner_name repo_name_pat (Some (f :: fs))
                    callbacks st))) ->
  exists extra,
    keys entry
    = filter (fun k => contains k (f :: fs)) dispatch_order ++ extra
    /\ (callbacks = [] -> extra = []).
Proof.
  intro Hin. apply scan_repos_yields_entry in Hin.
  destruct Hin as (owner & s1 & s2 & Hb).
  rewrite build_entry_dispatch in Hb. unfold bind in Hb.
  destruct (assign_fields _ _ _ s1) as [[entry1 | e] s1'] eqn:Ha;
    [|discriminate].
  apply assign_fields_keys in Ha.
  - apply apply_callbacks_keys in Hb. destruct Hb as (extra & Hk & Hnil).
    exists extra. rewrite Hk, Ha, dispatch_order_names. auto.
  - rewrite dispatch_order_names. apply dispatch_order_NoDup.
  - intros n _ [].
Qed.

End RecordFacts.

(** C4, as stated, fails: asked for [stargazers_count] before [name], the
    scanner yields records with [name] before [stargazers_count]. *)
Lemma scan_repos_keys_not_in_fields_order :
  exists repos entry rest,
    yields (fst (scan_repos Demo.float_repr Demo.object_str Demo.re_match
                   Demo.github Demo.heap None None (Some "octocat"%string)
                   None (Some ["stargazers_count"; "name"]%string) []
                   empty_state))
    = YieldRepos repos :: YieldEntry Demo.alpha entry :: rest
    /\ keys entry = ["name"; "stargazers_count"]%string
    /\ keys entry <> ["stargazers_count"; "name"]%string.
Proof.
  do 3 eexists. split; [reflexivity |]. split; [reflexivity | discriminate].
Qed.

Lemma scan_repos_record_keys_witness :
  let entry :=
    [("name"%string, VStr (anchor Demo.octocat "alpha" "alpha"));
     ("stargazers_count"%string, VInt 10)] in
  exists extra,
    In (YieldEntry Demo.alpha entry)
      (yields (fst (scan_repos Demo.float_repr Demo.object_str Demo.re_match
                      Demo.github Demo.heap None None (Some "octocat"%string)
                      None (Some ["stargazers_count"; "name"]%string) []
                      empty_state)))
    /\ keys entry
       = filter (fun k => contains k ["stargazers_count"; "name"]%string)
           dispatch_order ++ extra
    /\ extra = [].
Proof.
  intro entry.
  assert (In (YieldEntry Demo.alpha entry)
            (yields (fst (scan_repos Demo.float_repr Demo.object_str
                            Demo.re_match Demo.github Demo.heap None None
                            (Some "octocat"%string) None
                            (Some ["stargazers_count"; "name"]%string) []
                            empty_state)))) as Hin
    by (simpl; right; left; reflexivity).
  destruct (scan_repos_record_keys Demo.float_repr Demo.object_str
              Demo.re_match Demo.github Demo.heap None None
              (Some "octocat"%string) None "stargazers_count"%string
              ["name"%string] [] empty_state Demo.alpha entry Hin)
    as (extra & Hk & Hnil).
  exists extra. split; [exact Hin |]. split; [exact Hk | exact (Hnil eq_refl)].
Defined.

Section LeniencyFacts.

Variable float_repr : Q -> string.
Variable object_str : value -> string.
Variable h : Heap.



End LeniencyFacts.


(* ================================================================== *)
(** * Further properties of the code *)

(* ------------------------------------------------------------------ *)
(** ** [sparkline_svg]: when it raises, and where the points lie *)

Lemma py_min_spec (data : list Z) (lo : Z) :
  py_min data = Ok lo -> In lo data /\ (forall v, In v data -> lo <= v).
Proof.
  destruct data as [|x l]; simpl; [discriminate |].
  intro H; inversion H; subst; clear H.
  destruct (fold_min_spec l x) as (Hmem & Hle & Hlow). split.
  - destruct Hmem as [-> | ?]; auto.
  - intros v [<- | Hv]; auto.
Qed.


(** When every element returns or raises [e], and one raises, so does the
    comprehension. *)
Lemma comprehension_some_raises {A B : Type} (f : A -> result B)
    (l : list A) (e : exn) :
  (forall x, In x l -> (exists y, f x = Ok y) \/ f x = Raise e) ->
  (exists x, In x l /\ f x = Raise e) ->
  comprehension f l = Raise e.
Proof.
  induction l as [|x l IH]; intros Hall (x0 & Hin & Hx0); [destruct Hin |].
  simpl. destruct (Hall x (or_introl eq_refl)) as [[y Hy] | Hr].
  - rewrite Hy. simpl. rewrite IH; [reflexivity | |].
    + intros x' Hx'. apply Hall. right. exact Hx'.
    + destruct Hin as [-> | Hin]; [congruence |]. eauto.
  - rewrite Hr. reflexivity.
Qed.

Lemma enumerate_from_In_value {A : Type} (l : list A) (k : Z) (v : A) :
  In v l -> exists i, In (i, v) (enumerate_from k l).
Proof.
  revert k; induction l as [|a l IH]; intros k; simpl; [intros [] |].
  intros [-> | Hin]; [eauto |].
  destruct (IH (k + 1) Hin) as [i Hi]. eauto.
Qed.

(** What the two comprehensions give, case by case, for a height that a
    float holds exactly. *)
Lemma sparkline_points_cases (data : list Z) (width height lo hi : Z) :
  py_min data = Ok lo -> py_max data = Ok hi -> Z.abs height <= 2 ^ 53 ->
  let x := fun i : Z =>
             Binary64.float_mul (Binary64.nearest_quotient i (len data))
               (Binary64.nearest_int width) in
  let y := fun val : Z =>
             Binary64.float_mul (Binary64.nearest_quotient (hi - val) hi)
               (Binary64.nearest_int height) in
  Binary64.sparkline_points data width height =
  if Binary64.too_large (inject_Z width) then Raise OverflowError
  else if lo =? hi then
    Ok (map (fun iv => (Binary64.NFloat (x (fst iv)),
                        Binary64.NInt (height - 1))) (enumerate data))
  else if hi =? 0 then Raise ZeroDivisionError
  else if existsb (fun val => Binary64.too_large
                                (inject_Z (hi - val) / inject_Z hi)) data
  then Raise OverflowError
  else
    Ok (map (fun iv => (Binary64.NFloat (x (fst iv)),
                        Binary64.NFloat (y (snd iv)))) (enumerate data)).
Proof.
  intros Hmin Hmax Hh x y.
  destruct (py_min_spec _ _ Hmin) as [Hlo _].
  pose proof (len_pos data lo Hlo) as Hlen.
  assert (forall i v, In (i, v) (enumerate data) ->
            Binary64.truediv i (len data)
            = Ok (Binary64.nearest_quotient i (len data))) as Hx.
  { intros i v Hin. apply enumerate_In in Hin.
    apply Binary64Facts.truediv_unit; lia. }
  unfold Binary64.sparkline_points. rewrite Hmin, Hmax. cbn [rbind].
  destruct (Binary64.too_large (inject_Z width)) eqn:Ew.
  - (* the first element raises *)
    destruct data as [|d0 l]; [destruct Hlo |].
    assert (Binary64.truediv 0 (len (d0 :: l))
            = Ok (Binary64.nearest_quotient 0 (len (d0 :: l)))) as H0
      by (apply (Hx 0 d0); left; reflexivity).
    destruct (negb (lo =? hi)); unfold enumerate;
      cbn [enumerate_from comprehension]; rewrite H0; cbn [rbind];
      unfold Binary64.mul_int, Binary64.float_of_int; rewrite Ew;
      reflexivity.
  - assert (forall q, Binary64.mul_int q width
                      = Ok (Binary64.float_mul q (Binary64.nearest_int width)))
      as Hm.
    { intro q. unfold Binary64.mul_int, Binary64.float_of_int.
      rewrite Ew. reflexivity. }
    destruct (Z.eqb_spec lo hi) as [E | N]; cbn [negb].
    + apply comprehension_map. intros [i v] Hin.
      rewrite (Hx i v Hin). cbn [rbind]. rewrite Hm. reflexivity.
    + destruct (Z.eqb_spec hi 0) as [E0 | N0].
      * destruct data as [|d0 l]; [destruct Hlo |].
        assert (Binary64.truediv 0 (len (d0 :: l))
                = Ok (Binary64.nearest_quotient 0 (len (d0 :: l)))) as H0
          by (apply (Hx 0 d0); left; reflexivity).
        unfold enumerate. cbn [enumerate_from comprehension].
        rewrite H0. cbn [rbind]. rewrite Hm. cbn [rbind].
        unfold Binary64.truediv. subst hi. rewrite Z.eqb_refl. reflexivity.
      * assert (forall i v, In (i, v) (enumerate data) ->
                  (do q <- Binary64.truediv i (len data);
                   do x0 <- Binary64.mul_int q width;
                   do r <- Binary64.truediv (hi - v) hi;
                   do y0 <- Binary64.mul_int r height;
                   Ok (Binary64.NFloat x0, Binary64.NFloat y0))%result
                  = if Binary64.too_large (inject_Z (hi - v) / inject_Z hi)
                    then Raise OverflowError
                    else Ok (Binary64.NFloat (x i), Binary64.NFloat (y v)))
          as Hf.
        { intros i v Hin. rewrite (Hx i v Hin). cbn [rbind]. rewrite Hm.
          cbn [rbind]. unfold Binary64.truediv.
          destruct (Z.eqb_spec hi 0); [contradiction |].
          destruct (Binary64.too_large (inject_Z (hi - v) / inject_Z hi));
            [reflexivity |].
          cbn [rbind]. rewrite Binary64Facts.mul_int_exact by exact Hh.
          reflexivity. }
        destruct (existsb _ data) eqn:Ex.
        -- apply existsb_exists in Ex. destruct Ex as (v & Hv & Hbig).
           apply comprehension_some_raises.
           ++ intros [i v'] Hin. rewrite (Hf i v' Hin).
              destruct (Binary64.too_large
                          (inject_Z (hi - v') / inject_Z hi));
                [right; reflexivity | left; eexists; reflexivity].
           ++ destruct (enumerate_from_In_value data 0 v Hv) as [i Hi].
              exists (i, v). split; [exact Hi |].
              rewrite (Hf i v Hi), Hbig. reflexivity.
        -- apply comprehension_map. intros [i v] Hin.
           rewrite (Hf i v Hin).
           assert (Binary64.too_large (inject_Z (hi - v) / inject_Z hi)
                   = false) as ->; [|reflexivity].
           destruct (Binary64.too_large (inject_Z (hi - v) / inject_Z hi))
             eqn:Eb; [|reflexivity].
           assert (existsb (fun val => Binary64.too_large
                             (inject_Z (hi - val) / inject_Z hi)) data = true)
             as Ex'; [|congruence].
           apply existsb_exists. exists v. split; [|exact Eb].
           apply enumerate_In in Hin. tauto.
Qed.

(** X1: with a [height] and a [weight] of at most [2^53] in magnitude,
    [sparkline_svg] raises in exactly four cases: [ValueError] on the
    empty sequence; [OverflowError] when the width is too large for a
    float; otherwise, on a non-constant sequence, [ZeroDivisionError]
    when the maximum is 0, and [OverflowError] when the maximum is not 0
    and for some element [(max - val) / max] is too large for a float.
    On every other input it returns markup. *)
Theorem sparkline_svg_raises_iff (float_repr : Binary64.float -> string)
    (data : list Z) (add_embed : bool) (params : Params) (e : exn) :
  let width := params_get (p_width params) (len data) in
  let height := params_get (p_height params) 10 in
  let weight := params_get (p_weight params) 2 in
  Z.abs height <= 2 ^ 53 -> Z.abs weight <= 2 ^ 53 ->
  Binary64.sparkline_svg float_repr data add_embed params = Raise e
  <-> (data = [] /\ e = ValueError)
      \/ (data <> [] /\ Binary64.too_large (inject_Z width) = true
          /\ e = OverflowError)
      \/ (Binary64.too_large (inject_Z width) = false
          /\ exists lo hi,
               py_min data = Ok lo /\ py_max data = Ok hi /\ lo <> hi
               /\ ((hi = 0 /\ e = ZeroDivisionError)
                   \/ (hi <> 0
                       /\ (exists val,
                              In val data
                              /\ Binary64.too_large
                                   (inject_Z (hi - val) / inject_Z hi) = true)
                       /\ e = OverflowError))).
Proof.
  intros width height weight Hh Hg.
  unfold Binary64.sparkline_svg. fold width height.
  destruct data as [|d0 l] eqn:Hdata.
  { simpl. split.
    - intro H; inversion H. left. auto.
    - intros [[_ ->] | [(N & _) | (_ & lo & hi & Hmin & _)]];
        [reflexivity | contradiction | discriminate]. }
  rewrite <- Hdata in *.
  assert (data <> []) as Hne by (rewrite Hdata; discriminate).
  destruct (py_min data) as [lo |] eqn:Hmin; [|subst; discriminate].
  destruct (py_max data) as [hi |] eqn:Hmax; [|subst; discriminate].
  rewrite (sparkline_points_cases data width height lo hi Hmin Hmax Hh).
  destruct (Binary64.too_large (inject_Z width)) eqn:Ew.
  { cbn [rbind]. split.
    - intro H; inversion H. right. left. auto.
    - intros [[E _] | [(_ & _ & ->) | (F & _)]];
        [contradiction | reflexivity | discriminate]. }
  destruct (Z.eqb_spec lo hi) as [E | N].
  { cbn [rbind]. split; [discriminate |].
    intros [[E' _] | [(_ & F & _) | (_ & lo' & hi' & Hlo' & Hhi' & N' & _)]];
      [contradiction | discriminate |].
    inversion Hlo'; inversion Hhi'; subst lo' hi'. contradiction. }
  destruct (Z.eqb_spec hi 0) as [E0 | N0].
  { cbn [rbind]. split.
    - intro H; inversion H; subst. right. right. split; [reflexivity |].
      exists lo, 0. repeat split; auto.
    - intros [[E' _] | [(_ & F & _) | (_ & lo' & hi' & Hlo' & Hhi' & _ & C)]];
        [contradiction | discriminate |].
      inversion Hhi'; subst hi'.
      destruct C as [(_ & ->) | (N' & _)]; [reflexivity | contradiction]. }
  destruct (existsb _ data) eqn:Ex; cbn [rbind].
  - split.
    + intro H; inversion H; subst. right. right. split; [reflexivity |].
      exists lo, hi. split; [reflexivity |]. split; [reflexivity |].
      split; [exact N |]. right. split; [exact N0 |].
      split; [|reflexivity]. apply existsb_exists in Ex. exact Ex.
    + intros [[E' _] | [(_ & F & _) | (_ & lo' & hi' & Hlo' & Hhi' & _ & C)]];
        [contradiction | discriminate |].
      inversion Hhi'; subst hi'.
      destruct C as [(Z0 & _) | (_ & _ & ->)]; [contradiction | reflexivity].
  - split; [discriminate |].
    intros [[E' _] | [(_ & F & _) | (_ & lo' & hi' & Hlo' & Hhi' & _ & C)]];
      [contradiction | discriminate |].
    inversion Hhi'; subst hi'.
    destruct C as [(Z0 & _) | (_ & (v & Hv & Hbig) & _)]; [contradiction |].
    assert (existsb (fun val => Binary64.too_large
                      (inject_Z (hi - val) / inject_Z hi)) data = true)
      as Ex'; [|congruence].
    apply existsb_exists. eauto.
Qed.

Lemma sparkline_svg_raises_iff_witness :
  Binary64.sparkline_svg Fixture.float_repr [- 10 ^ 400; 1] false no_params
  = Raise OverflowError
  /\ Binary64.sparkline_svg Fixture.float_repr [-1; 0] false no_params
     = Raise ZeroDivisionError.
Proof.
  split.
  - apply (sparkline_svg_raises_iff Fixture.float_repr [- 10 ^ 400; 1] false
             no_params OverflowError);
      [vm_compute; discriminate | vm_compute; discriminate |].
    right. right. split; [vm_compute; reflexivity |].
    exists (- 10 ^ 400), 1. split; [reflexivity |]. split; [reflexivity |].
    split; [discriminate |]. right. split; [discriminate |].
    split; [|reflexivity].
    exists (- 10 ^ 400). split; [left; reflexivity | vm_compute; reflexivity].
  - apply (sparkline_svg_raises_iff Fixture.float_repr [-1; 0] false
             no_params ZeroDivisionError);
      [vm_compute; discriminate | vm_compute; discriminate |].
    right. right. split; [vm_compute; reflexivity |].
    exists (-1), 0. split; [reflexivity |]. split; [reflexivity |].
    split; [discriminate |]. left. auto.
Defined.







(** The scaled height of a value at most the maximum: a non-negative
    float, or the positive infinity. *)
Lemma scaled_y_cases (hi val height : Z) :
  0 < hi -> val <= hi -> 0 <= height <= 2 ^ 53 ->
  let m := Binary64.round
             (Binary64.round (Qabs (inject_Z (hi - val) / inject_Z hi))
              * inject_Z height) in
  Binary64.float_mul (Binary64.nearest_quotient (hi - val) hi)
    (Binary64.nearest_int height)
  = if Qle_bool (Binary64.pow2 1024) m then Binary64.Infinity false
    else Binary64.Finite false m.
Proof.
  intros Hhi Hval Hh m. unfold Binary64.nearest_quotient.
  assert ((hi - val <? 0) = false) as -> by lia.
  assert ((hi <? 0) = false) as -> by lia.
  rewrite Binary64Facts.nearest_int_exact by lia.
  assert ((height <? 0) = false) as -> by lia.
  rewrite Z.abs_eq by lia. reflexivity.
Qed.

(** X3: on a non-constant sequence with a positive maximum, drawn with a
    [height] between 0 and [2^53], the float
    [(max - val) / max * height] does not grow with the value: of two
    elements the larger is drawn at a y that is not larger, that is, not
    lower in the picture; and a negative element is drawn at the bottom
    edge or below it ([y >= height]). *)
Theorem sparkline_svg_peaks_up (data : list Z) (width height lo hi : Z)
    (pts : list (Binary64.num * Binary64.num)) :
  In lo data -> In hi data ->
  (forall v, In v data -> lo <= v <= hi) ->
  lo <> hi -> 0 < hi -> 0 <= height <= 2 ^ 53 ->
  Binary64.sparkline_points data width height = Ok pts ->
  let x := fun i : Z =>
             Binary64.float_mul (Binary64.nearest_quotient i (len data))
               (Binary64.nearest_int width) in
  let y := fun val : Z =>
             Binary64.float_mul (Binary64.nearest_quotient (hi - val) hi)
               (Binary64.nearest_int height) in
  pts = map (fun iv => (Binary64.NFloat (x (fst iv)),
                        Binary64.NFloat (y (snd iv)))) (enumerate data)
  /\ (forall v1 v2, In v1 data -> In v2 data -> v1 <= v2 ->
        Binary64.float_le (y v2) (y v1))
  /\ (forall v, In v data -> v < 0 ->
        Binary64.float_le (Binary64.Finite false (inject_Z height)) (y v)).
Proof.
  intros Hlo Hhi Hall Hne Hpos Hh Hpts x y.
  assert (0 <= inject_Z height)%Q as Hq by (unfold Qle; simpl; lia).
  assert (forall a b : Z, a <= b ->
            (inject_Z a / inject_Z hi <= inject_Z b / inject_Z hi)%Q) as Hdiv.
  { intros a b Hab. unfold Qdiv. apply Qmult_le_compat_r.
    - rewrite <- Zle_Qle. exact Hab.
    - apply Qlt_le_weak, Qinv_lt_0_compat. unfold Qlt; simpl; lia. }
  split; [|split].
  - rewrite (sparkline_points_cases data width height lo hi) in Hpts;
      [| apply py_min_least; auto; intros v Hv; apply Hall; exact Hv
       | apply py_max_greatest; auto; intros v Hv; apply Hall; exact Hv
       | lia].
    destruct (Binary64.too_large (inject_Z width)); [discriminate |].
    destruct (Z.eqb_spec lo hi); [contradiction |].
    destruct (Z.eqb_spec hi 0); [lia |].
    destruct (existsb _ data); [discriminate |].
    inversion Hpts. reflexivity.
  - intros v1 v2 H1 H2 Hle. unfold y.
    pose proof (Hall v1 H1) as B1. pose proof (Hall v2 H2) as B2.
    rewrite !scaled_y_cases by lia.
    set (q1 := Binary64.round (Qabs (inject_Z (hi - v1) / inject_Z hi))).
    set (q2 := Binary64.round (Qabs (inject_Z (hi - v2) / inject_Z hi))).
    assert (0 <= q2)%Q as Q0
      by (apply Binary64Facts.round_nonneg, Qabs_nonneg).
    assert (q2 <= q1)%Q as Q12.
    { apply Binary64Facts.round_le; [apply Qabs_nonneg |].
      rewrite !Qabs_pos by (apply Binary64Facts.fraction_nonneg; lia).
      apply Hdiv. lia. }
    assert (Binary64.round (q2 * inject_Z height)
            <= Binary64.round (q1 * inject_Z height))%Q as M12.
    { apply Binary64Facts.round_le.
      - apply Qmult_le_0_compat; assumption.
      - apply Qmult_le_compat_r; assumption. }
    destruct (Qle_bool (Binary64.pow2 1024)
                (Binary64.round (q1 * inject_Z height))) eqn:E1.
    + destruct (Qle_bool _ (Binary64.round (q2 * inject_Z height)));
        exact I.
    + destruct (Qle_bool (Binary64.pow2 1024)
                  (Binary64.round (q2 * inject_Z height))) eqn:E2.
      * exfalso. apply Qle_bool_iff in E2.
        assert (Qle_bool (Binary64.pow2 1024)
                  (Binary64.round (q1 * inject_Z height)) = true)
          as C; [|congruence].
        apply Qle_bool_iff. eapply Qle_trans; eauto.
      * exact M12.
  - intros v Hv Hneg. unfold y.
    pose proof (Hall v Hv) as B.
    rewrite scaled_y_cases by lia.
    set (q := Binary64.round (Qabs (inject_Z (hi - v) / inject_Z hi))).
    assert (1 <= q)%Q as Q1.
    { rewrite <- Binary64Facts.round_one at 1.
      apply Binary64Facts.round_le; [discriminate |].
      rewrite Qabs_pos by (apply Binary64Facts.fraction_nonneg; lia).
      apply Qle_shift_div_l; [unfold Qlt; simpl; lia |].
      rewrite Qmult_1_l, <- Zle_Qle. lia. }
    assert (inject_Z height <= Binary64.round (q * inject_Z height))%Q as M.
    { rewrite <- (Binary64Facts.round_int height) at 1 by lia.
      apply Binary64Facts.round_le; [exact Hq |].
      rewrite <- (Qmult_1_l (inject_Z height)) at 1.
      apply Qmult_le_compat_r; assumption. }
    destruct (Qle_bool _ (Binary64.round (q * inject_Z height)));
      [exact I | exact M].
Qed.

Lemma sparkline_svg_peaks_up_witness :
  Binary64.sparkline_points [-1; 0; 2; 2] 4 10
  = Ok [(Binary64.NFloat (Binary64.Finite false 0),
         Binary64.NFloat (Binary64.Finite false 15));
        (Binary64.NFloat (Binary64.Finite false 1),
         Binary64.NFloat (Binary64.Finite false 10));
        (Binary64.NFloat (Binary64.Finite false 2),
         Binary64.NFloat (Binary64.Finite false 0));
        (Binary64.NFloat (Binary64.Finite false 3),
         Binary64.NFloat (Binary64.Finite false 0))]
  /\ Binary64.float_le (Binary64.Finite false 10)
       (Binary64.float_mul (Binary64.nearest_quotient (2 - -1) 2)
          (Binary64.nearest_int 10)).
Proof.
  assert (Binary64.sparkline_points [-1; 0; 2; 2] 4 10
          = Ok [(Binary64.NFloat (Binary64.Finite false 0),
                 Binary64.NFloat (Binary64.Finite false 15));
                (Binary64.NFloat (Binary64.Finite false 1),
                 Binary64.NFloat (Binary64.Finite false 10));
                (Binary64.NFloat (Binary64.Finite false 2),
                 Binary64.NFloat (Binary64.Finite false 0));
                (Binary64.NFloat (Binary64.Finite false 3),
                 Binary64.NFloat (Binary64.Finite false 0))]) as Hpts
    by (vm_compute; reflexivity).
  split; [exact Hpts |].
  assert (forall v, In v [-1; 0; 2; 2] -> -1 <= v <= 2) as Hall
    by (simpl; intros v [<- | [<- | [<- | [<- | []]]]]; lia).
  assert (0 <= 10 <= 2 ^ 53) as Hh by (vm_compute; split; discriminate).
  destruct (sparkline_svg_peaks_up [-1; 0; 2; 2] 4 10 (-1) 2 _
              (or_introl eq_refl) (or_intror (or_intror (or_introl eq_refl)))
              Hall ltac:(lia) ltac:(lia) Hh Hpts) as (_ & _ & H).
  apply (H (-1)); [left; reflexivity | lia].
Defined.

(* ------------------------------------------------------------------ *)
(** ** [get_repo_attr]: what the cache keeps *)

Lemma exn_eqb_eq (a b : exn) : exn_eqb a b = true -> a = b.
Proof.
  destruct a, b; simpl; try discriminate; auto.
  intro H. apply Z.eqb_eq in H. subst. reflexivity.
Qed.

Lemma value_eqb_eq : forall a b : value, value_eqb a b = true -> a = b.
Proof.
  fix IH 1. intros a b. destruct a, b; simpl; try discriminate; intro H.
  - reflexivity.
  - apply Bool.eqb_prop in H. subst. reflexivity.
  - apply Z.eqb_eq in H. subst. reflexivity.
  - apply String.eqb_eq in H. subst. reflexivity.
  - apply Z.eqb_eq in H. subst. reflexivity.
  - f_equal. revert l0 H. induction l as [|x l IHl]; intros [|y l0] H;
      try discriminate; [reflexivity |].
    apply andb_prop in H. destruct H as [H1 H2].
    apply IH in H1. apply IHl in H2. subst. reflexivity.
  - f_equal. revert d0 H. induction d as [|[k x] d IHd]; intros [|[k' y] d0] H;
      try discriminate; [reflexivity |].
    apply andb_prop in H. destruct H as [H12 H3].
    apply andb_prop in H12. destruct H12 as [H1 H2].
    apply String.eqb_eq in H1. apply IH in H2. apply IHd in H3.
    subst. reflexivity.
  - destruct totalCount as [n | e], totalCount0 as [n0 | e0]; simpl in H;
      try discriminate.
    + apply Z.eqb_eq in H. subst. reflexivity.
    + apply exn_eqb_eq in H. subst. reflexivity.
  - apply Z.eqb_eq in H. subst. reflexivity.
Qed.

Lemma key_eqb_eq (a b : Key) : key_eqb a b = true -> a = b.
Proof.
  destruct a as [r n ar kw], b as [r' n' ar' kw']. unfold key_eqb. simpl.
  intro H. repeat (apply andb_prop in H; destruct H as [H ?]).
  apply Nat.eqb_eq in H. apply String.eqb_eq in H2.
  apply (value_eqb_eq (VList ar) (VList ar')) in H1.
  apply (value_eqb_eq (VDict kw) (VDict kw')) in H0.
  inversion H1; inversion H0; subst. reflexivity.
Qed.

(** X4: a call of [get_repo_attr] that raises stores nothing: the cache
    is as before and the accessor has run once; the next call written
    the same way (the same repository and name, the same further
    positional arguments, the same keyword arguments in the same order)
    therefore runs the function again, on the repository as it is then,
    and gives what the function gives. *)
Theorem get_repo_attr_failure_not_cached (h1 h2 : Heap) (repo : Repository)
    (name : string) (pos : list value) (kw : list (string * value))
    (st st1 : State) (e : exn) :
  get_repo_attr h1 repo name pos kw st = (Raise e, st1) ->
  let k := mkKey (repo_id repo) name pos kw in
  cache st1 = cache st
  /\ trace st1 = trace st ++ [Ev_accessor k]
  /\ fst (get_repo_attr h2 repo name pos kw st1)
     = get_repo_attr_body h2 k
  /\ trace (snd (get_repo_attr h2 repo name pos kw st1))
     = trace st ++ [Ev_accessor k; Ev_accessor k].
Proof.
  intros H k. unfold get_repo_attr, cached in *. fold k in H. fold k.
  destruct (cache_get k (cache st)) as [v |] eqn:Hget; [discriminate |].
  destruct (get_repo_attr_body h1 k) as [v | e1]; inversion H; subst; clear H.
  simpl. rewrite Hget. repeat split.
  - destruct (get_repo_attr_body h2 k); reflexivity.
  - destruct (get_repo_attr_body h2 k); simpl; rewrite <- app_assoc;
      reflexivity.
Qed.

Lemma get_repo_attr_failure_not_cached_witness :
  exists st1,
    get_repo_attr Demo.heap Demo.gamma "stargazers_count" [VBool false] []
      empty_state = (Raise RateLimitExceededException, st1)
    /\ cache st1 = []
    /\ fst (get_repo_attr Demo.heap_later Demo.gamma "stargazers_count"
              [VBool false] [] st1) = Ok (VInt 999).
Proof.
  eexists. split; [reflexivity |].
  destruct (get_repo_attr_failure_not_cached Demo.heap Demo.heap_later
              Demo.gamma "stargazers_count" [VBool false] [] empty_state _
              RateLimitExceededException eq_refl) as (Hc & _ & Hr & _).
  split; [exact Hc | exact Hr].
Defined.

(** What one call of [get_repo_attr] does to the state. *)
Lemma cached_state (f : Key -> result value) (k : Key) (st st' : State)
    (r : result value) :
  cached f k st = (r, st') ->
  (st' = st /\ exists v, cache_get k (cache st) = Some v /\ r = Ok v)
  \/ (cache_get k (cache st) = None
      /\ trace st' = trace st ++ [Ev_accessor k]
      /\ ((exists v, r = Ok v /\ cache st' = (k, v) :: cache st)
          \/ (exists e, r = Raise e /\ cache st' = cache st))).
Proof.
  unfold cached. destruct (cache_get k (cache st)) as [v |] eqn:Hget.
  - intro H; inversion H; subst. left. eauto.
  - destruct (f k) as [v | e]; intro H; inversion H; subst; right; simpl;
      repeat split; eauto.
Qed.

(** X5: cache entries are never replaced or dropped by [get_repo_attr]:
    a value stored under a key is still the one found there after any
    call, written the same or another way, whatever that call returns or
    raises. *)
Theorem get_repo_attr_keeps_entries (h : Heap) (repo : Repository)
    (name : string) (pos : list value) (kw : list (string * value))
    (st : State) (k : Key) (v : value) :
  cache_get k (cache st) = Some v ->
  cache_get k (cache (snd (get_repo_attr h repo name pos kw st)))
  = Some v.
Proof.
  intro Hk. unfold get_repo_attr.
  destruct (cached _ _ st) as [r st'] eqn:Hc. simpl.
  apply cached_state in Hc.
  destruct Hc as [[-> _] | (Hnone & _ & [(w & _ & ->) | (e & _ & ->)])]; auto.
  simpl. destruct (key_eqb k _) eqn:E; [|exact Hk].
  apply key_eqb_eq in E. subst. rewrite Hk in Hnone. discriminate.
Qed.

Lemma get_repo_attr_keeps_entries_witness :
  cache_get (mkKey 1 "stargazers_count" [] [])
    (cache (snd (get_repo_attr Demo.heap_later Demo.alpha "fork" [] []
                   (mkState [(mkKey 1 "stargazers_count" [] [],
                              VInt 10)] []))))
  = Some (VInt 10).
Proof.
  apply (get_repo_attr_keeps_entries Demo.heap_later Demo.alpha "fork"
           [] []). reflexivity.
Defined.

(* ------------------------------------------------------------------ *)
(** ** [scan_repos]: resolving the owner *)

Section OwnerFacts.

Variable float_repr : Q -> string.
Variable object_str : value -> string.
Variable re_match : string -> string -> result bool.
Variable g : Github.
Variable h : Heap.

Lemma truthy_str_Some (s : string) :
  s <> EmptyString -> truthy_str (Some s) = true.
Proof.
  intro H. simpl. destruct (String.eqb_spec s EmptyString);
    [contradiction | reflexivity].
Qed.

(** X6: with a combined [owner_name] the organization is looked up first
    and the user only after the organization was reported unknown.  Any
    other error of the organization lookup ends the scan at once, after
    that single request; when both are unknown the scan ends with
    [UnknownObjectException] after exactly the two lookups; in no failing
    case are the repositories listed. *)
Theorem scan_repos_combined_owner (owner_name : string)
    (repo_name_pat : option string) (fields : option (list string))
    (callbacks : list Callback) (st : State) :
  owner_name <> EmptyString ->
  let scan := scan_repos float_repr object_str re_match g h None None
                (Some owner_name) repo_name_pat fields callbacks st in
  let asked_org := trace st ++ [Ev_get_organization (Some owner_name)] in
  let asked_both := trace st ++ [Ev_get_organization (Some owner_name);
                                 Ev_get_user (Some owner_name)] in
  (forall e,
      get_organization g (Some owner_name) = Raise e ->
      e <> UnknownObjectException ->
      scan = (mkRun [] (Some e), mkState (cache st) asked_org))
  /\ (forall e,
         get_organization g (Some owner_name) = Raise UnknownObjectException ->
         get_user g (Some owner_name) = Raise e ->
         scan = (mkRun [] (Some e), mkState (cache st) asked_both))
  /\ (forall user,
         get_organization g (Some owner_name) = Raise UnknownObjectException ->
         get_user g (Some owner_name) = Ok user ->
         resolve_owner g None None (Some owner_name) st
         = (Ok user, mkState (cache st) asked_both))
  /\ (forall org,
         get_organization g (Some owner_name) = Ok org ->
         resolve_owner g None None (Some owner_name) st
         = (Ok org, mkState (cache st) asked_org)).
Proof.
  intros Hne scan asked_org asked_both.
  pose proof (truthy_str_Some owner_name Hne) as Ht.
  assert (len (filter truthy_str [None; None; Some owner_name]) = 1) as Hone
    by (cbn [filter]; rewrite Ht; reflexivity).
  unfold scan, scan_repos. rewrite Hone. cbn [Z.eqb Pos.eqb negb].
  unfold resolve_owner. rewrite Ht. cbn [negb].
  unfold try_except, bind, log, lift, raise. cbn [cache trace].
  repeat split.
  - intros e He Hno. rewrite He. destruct e; try reflexivity. contradiction.
  - intros e Ho Hu. rewrite Ho, Hu. unfold asked_both.
    cbn [cache trace]. rewrite <- app_assoc. reflexivity.
  - intros user Ho Hu. rewrite Ho, Hu. unfold asked_both.
    cbn [cache trace]. rewrite <- app_assoc. reflexivity.
  - intros org Ho. rewrite Ho. reflexivity.
Qed.

(** X7: with [org_name] alone only the organization is looked up, with
    [user_name] alone only the user: there is no fallback from one to the
    other, and a failed lookup ends the scan after that single request. *)
Theorem scan_repos_no_fallback (who : string) (repo_name_pat : option string)
    (fields : option (list string)) (callbacks : list Callback) (st : State)
    (e : exn) :
  who <> EmptyString ->
  (get_organization g (Some who) = Raise e ->
   scan_repos float_repr object_str re_match g h (Some who) None None
     repo_name_pat fields callbacks st
   = (mkRun [] (Some e),
      mkState (cache st) (trace st ++ [Ev_get_organization (Some who)])))
  /\ (get_user g (Some who) = Raise e ->
      scan_repos float_repr object_str re_match g h None (Some who) None
        repo_name_pat fields callbacks st
      = (mkRun [] (Some e),
         mkState (cache st) (trace st ++ [Ev_get_user (Some who)]))).
Proof.
  intro Hne. pose proof (truthy_str_Some who Hne) as Ht.
  assert (len (filter truthy_str [Some who; None; None]) = 1) as Horg
    by (cbn [filter]; rewrite Ht; reflexivity).
  assert (len (filter truthy_str [None; Some who; None]) = 1) as Huser
    by (cbn [filter]; rewrite Ht; reflexivity).
  split; intro He; unfold scan_repos; rewrite ?Horg, ?Huser;
    cbn [Z.eqb Pos.eqb negb]; unfold resolve_owner;
    change (truthy_str None) with false; rewrite ?Ht; cbn [negb];
    unfold bind, log, lift; cbn [cache trace]; rewrite He; reflexivity.
Qed.

End OwnerFacts.

Lemma scan_repos_combined_owner_witness :
  resolve_owner Demo.github None None (Some "octocat"%string) empty_state
  = (Ok Demo.octocat,
     mkState [] [Ev_get_organization (Some "octocat"%string);
                 Ev_get_user (Some "octocat"%string)])
  /\ scan_repos Demo.float_repr Demo.object_str Demo.re_match Demo.github
       Demo.heap None None (Some "nobody"%string) None None [] empty_state
     = (mkRun [] (Some UnknownObjectException),
        mkState [] [Ev_get_organization (Some "nobody"%string);
                    Ev_get_user (Some "nobody"%string)]).
Proof.
  split.
  - destruct (scan_repos_combined_owner Demo.float_repr Demo.object_str
                Demo.re_match Demo.github Demo.heap "octocat"%string None None []
                empty_state) as (_ & _ & Huser & _); [discriminate |].
    exact (Huser Demo.octocat eq_refl eq_refl).
  - destruct (scan_repos_combined_owner Demo.float_repr Demo.object_str
                Demo.re_match Demo.github Demo.heap "nobody"%string None None []
                empty_state) as (_ & Hboth & _); [discriminate |].
    exact (Hboth UnknownObjectException eq_refl eq_refl).
Defined.

Lemma scan_repos_no_fallback_witness :
  scan_repos Demo.float_repr Demo.object_str Demo.re_match Demo.github
    Demo.heap (Some "octocat"%string) None None None None [] empty_state
  = (mkRun [] (Some UnknownObjectException),
     mkState [] [Ev_get_organization (Some "octocat"%string)]).
Proof.
  destruct (scan_repos_no_fallback Demo.float_repr Demo.object_str
              Demo.re_match Demo.github Demo.heap "octocat"%string None None []
              empty_state UnknownObjectException) as [Horg _];
    [discriminate |].
  exact (Horg eq_refl).
Defined.

(* ------------------------------------------------------------------ *)
(** ** [scan_repos]: which records come, and in which order *)

Lemma filter_comprehension_filter {A : Type} (p : A -> result bool)
    (l l' : list A) :
  filter_comprehension p l = Ok l' ->
  l' = filter (fun x => match p x with Ok true => true | _ => false end) l.
Proof.
  revert l'; induction l as [|a l IH]; intros l'; simpl.
  - intro H; inversion H; reflexivity.
  - destruct (p a) as [b | e]; simpl; [|discriminate].
    destruct (filter_comprehension p l) as [rest | e]; simpl; [|discriminate].
    intro H; inversion H; subst. rewrite (IH rest eq_refl).
    destruct b; reflexivity.
Qed.

(** The loop works through its list from the front: what it yields are
    the records of a prefix, the whole list when it ends normally. *)
Lemma scan_loop_prefix (body : Repository -> M Entry)
    (repos : list Repository) (st : State) :
  exists processed rest,
    yields (fst (scan_loop body repos st))
    = map (fun re => YieldEntry (fst re) (snd re)) processed
    /\ repos = map fst processed ++ rest
    /\ (raised (fst (scan_loop body repos st)) = None -> rest = []).
Proof.
  revert st; induction repos as [|r repos IH]; intro st; simpl.
  - exists [], []. auto.
  - destruct (body r st) as [[entry | e] st'].
    + destruct (IH st') as (processed & rest & Hy & Hr & Hn).
      destruct (scan_loop body repos st') as [out st'']. simpl in *.
      exists ((r, entry) :: processed), rest. simpl.
      rewrite Hy, <- Hr. auto.
    + exists [], (r :: repos). simpl. repeat split. discriminate.
Qed.

Section OrderFacts.

Variable float_repr : Q -> string.
Variable object_str : value -> string.
Variable re_match : string -> string -> result bool.
Variable g : Github.
Variable h : Heap.

(** X8: a run of the generator either raises before it yields anything,
    or yields the repository list followed by records only.  The records
    belong, in the order of that list, to the repositories the filter
    keeps (all of them when the pattern is [None] or empty), without
    gaps from the front; when the run ends without an exception every
    kept repository has its record.  There are never more records than
    entries in the first list. *)
Theorem scan_repos_records_in_order
    (org_name user_name owner_name repo_name_pat : option string)
    (fields : option (list string)) (callbacks : list Callback) (st : State) :
  let out := fst (scan_repos float_repr object_str re_match g h org_name
                    user_name owner_name repo_name_pat fields callbacks st) in
  let keep := fun r : Repository =>
                if truthy_str repo_name_pat
                then match re_match (params_get repo_name_pat EmptyString)
                             (r_name r) with
                     | Ok true => true
                     | _ => false
                     end
                else true in
  (yields out = [] /\ raised out <> None)
  \/ exists repos processed rest,
       yields out
       = YieldRepos repos
           :: map (fun re => YieldEntry (fst re) (snd re)) processed
       /\ filter keep repos = map fst processed ++ rest
       /\ (raised out = None -> rest = [])
       /\ (List.length processed <= List.length repos)%nat.
Proof.
  intros out keep. unfold out, scan_repos.
  destruct (negb _); [left; split; [reflexivity | discriminate] |].
  destruct (resolve_owner _ _ _ _ _) as [[owner | e] st1];
    [|left; split; [reflexivity | discriminate]].
  destruct (bind _ _ st1) as [[listed | e] st2];
    [|left; split; [reflexivity | discriminate]].
  right. set (repos := sorted (fun r => lower (r_name r)) listed).
  assert (forall (processed : list (Repository * Entry)) rest,
             filter keep repos = map fst processed ++ rest ->
             (List.length processed <= List.length repos)%nat) as Hlen.
  { intros processed rest E.
    pose proof (filter_length_le keep repos) as Hle.
    rewrite E, length_app, length_map in Hle. lia. }
  destruct (if truthy_str repo_name_pat then _ else _) as [matching | e]
    eqn:Hf.
  - assert (matching = filter keep repos) as ->.
    { unfold keep. destruct (truthy_str repo_name_pat).
      - apply filter_comprehension_filter in Hf. exact Hf.
      - inversion Hf. clear. induction repos as [|a l IH]; simpl; congruence. }
    match goal with
    | |- context [scan_loop ?b ?l ?s] =>
        destruct (scan_loop_prefix b l s) as (processed & rest & Hy & Hr & Hn);
        destruct (scan_loop b l s) as [r st3]
    end.
    simpl in *. exists repos, processed, rest. rewrite Hy.
    repeat split; eauto.
  - exists repos, [], (filter keep repos). simpl.
    repeat split; [discriminate | lia].
Qed.

(** X9: when no field list is supplied, or an empty one, the records
    carry the default fields, their keys in the order of the default
    list, followed by whatever the callbacks add. *)
Theorem scan_repos_default_fields
    (org_name user_name owner_name repo_name_pat : option string)
    (fields : option (list string)) (callbacks : list Callback) (st : State)
    (repo : Repository) (entry : Entry) :
  fields = None \/ fields = Some [] ->
  In (YieldEntry repo entry)
    (yields (fst (scan_repos float_repr object_str re_match g h org_name
                    user_name owner_name repo_name_pat fields callbacks st))) ->
  exists extra,
    keys entry = default_fields ++ extra /\ (callbacks = [] -> extra = []).
Proof.
  intros Hf Hin. apply scan_repos_yields_entry in Hin.
  destruct Hin as (owner & s1 & s2 & Hb).
  assert (match fields with
          | Some (f :: fs) => f :: fs
          | _ => default_fields
          end = default_fields) as Hd by (destruct Hf; subst; reflexivity).
  rewrite Hd, build_entry_dispatch in Hb. unfold bind in Hb.
  destruct (assign_fields _ _ _ s1) as [[entry1 | e] s1'] eqn:Ha;
    [|discriminate].
  apply assign_fields_keys in Ha.
  - apply apply_callbacks_keys in Hb. destruct Hb as (extra & Hk & Hnil).
    exists extra. rewrite Hk, Ha, dispatch_order_names. auto.
  - rewrite dispatch_order_names. apply dispatch_order_NoDup.
  - intros n _ [].
Qed.

End OrderFacts.

Lemma scan_repos_default_fields_witness :
  exists entry,
    In (YieldEntry Fixture.repo entry)
      (yields (fst (scan_repos Demo.float_repr Demo.object_str Demo.re_match
                      Fixture.github Fixture.heap None None
                      (Some "deeplook"%string) None (Some []) []
                      empty_state)))
    /\ keys entry = default_fields.
Proof.
  assert (exists entry,
             In (YieldEntry Fixture.repo entry)
               (yields (fst (scan_repos Demo.float_repr Demo.object_str
                               Demo.re_match Fixture.github Fixture.heap None
                               None (Some "deeplook"%string) None (Some []) []
                               empty_state)))) as [entry Hin]
    by (eexists; vm_compute; right; left; reflexivity).
  destruct (scan_repos_default_fields Demo.float_repr Demo.object_str
              Demo.re_match Fixture.github Fixture.heap None None
              (Some "deeplook"%string) None (Some []) [] empty_state
              Fixture.repo entry (or_intror eq_refl) Hin)
    as (extra & Hk & Hnil).
  exists entry. split; [exact Hin |].
  rewrite Hk, (Hnil eq_refl). apply app_nil_r.
Defined.

(* ------------------------------------------------------------------ *)
(** ** Callbacks *)

Lemma dict_get_notin (k : string) (d : Entry) :
  ~ In k (keys d) -> dict_get k d = None.
Proof.
  unfold keys. induction d as [|[k' v] d IH]; simpl; [reflexivity |].
  intro H. destruct (String.eqb_spec k' k) as [-> | _].
  - exfalso. apply H. now left.
  - apply IH. intro Hin. apply H. now right.
Qed.

(** [d.update(other)] read key by key. *)
Lemma dict_get_dict_update (k : string) (other d : Entry) :
  NoDup (keys other) ->
  dict_get k (dict_update d other)
  = match dict_get k other with
    | Some v => Some v
    | None => dict_get k d
    end.
Proof.
  unfold dict_update. revert d.
  induction other as [|[k0 v0] other IH]; intros d Hnd; simpl; [reflexivity |].
  inversion Hnd as [|? ? Hk0 Hnd']; subst.
  rewrite (IH (dict_set k0 v0 d) Hnd').
  destruct (String.eqb_spec k0 k) as [-> | Hne].
  - rewrite (dict_get_notin k other Hk0). apply dict_get_dict_set_same.
  - destruct (dict_get k other); [reflexivity |].
    apply dict_get_dict_set_other. exact Hne.
Qed.

Lemma bind_ret_r {A : Type} (m : M A) (st : State) : bind m ret st = m st.
Proof. unfold bind, ret. destruct (m st) as [[a | e] s]; reflexivity. Qed.

(** X10: callbacks are merged in order, the last one wins.  When the
    callbacks so far gave [entry1] and the next callback returns the
    dict [other], the record becomes [entry1] updated by [other]: every
    key of [other] has the value [other] gives it, whether a built-in
    field or an earlier callback set it before, every other key keeps
    its value, and the keys already present keep their place. *)
Theorem apply_callbacks_last_wins (callbacks : list Callback) (cb : Callback)
    (repo : Repository) (entry entry1 other : Entry) (st st1 st2 : State) :
  apply_callbacks callbacks repo entry st = (Ok entry1, st1) ->
  cb repo st1 = (Ok other, st2) ->
  NoDup (keys other) ->
  apply_callbacks (callbacks ++ [cb]) repo entry st
  = (Ok (dict_update entry1 other), st2)
  /\ (forall k v,
         dict_get k other = Some v ->
         dict_get k (dict_update entry1 other) = Some v)
  /\ (forall k,
         dict_get k other = None ->
         dict_get k (dict_update entry1 other) = dict_get k entry1)
  /\ exists extra, keys (dict_update entry1 other) = keys entry1 ++ extra.
Proof.
  intros Hcbs Hcb Hnd. split; [|split; [|split]].
  - unfold apply_callbacks in *.
    rewrite <- bind_ret_r, for_each_app_then. unfold bind at 1.
    rewrite Hcbs. simpl. unfold bind, ret. rewrite Hcb. reflexivity.
  - intros k v Hk. rewrite dict_get_dict_update, Hk; auto.
  - intros k Hk. rewrite dict_get_dict_update, Hk; auto.
  - apply keys_dict_update.
Qed.

Lemma apply_callbacks_last_wins_witness :
  let entry1 := [("name"%string, VStr "linked"); ("stars"%string, VInt 1)] in
  apply_callbacks [Fixture.first_cb; Fixture.second_cb] Fixture.repo
    [("name"%string, VStr "linked")] empty_state
  = (Ok [("name"%string, VStr "plain"); ("stars"%string, VInt 2)], empty_state)
  /\ keys (dict_update entry1
            [("stars"%string, VInt 2); ("name"%string, VStr "plain")])
     = ["name"; "stars"]%string.
Proof.
  intro entry1.
  destruct (apply_callbacks_last_wins [Fixture.first_cb] Fixture.second_cb
              Fixture.repo [("name"%string, VStr "linked")] entry1
              [("stars"%string, VInt 2); ("name"%string, VStr "plain")]
              empty_state empty_state empty_state eq_refl eq_refl)
    as (Hrun & _ & _ & _).
  - repeat constructor; simpl; intuition discriminate.
  - split; [exact Hrun | reflexivity].
Defined.

(* ------------------------------------------------------------------ *)
(** ** The cache during a scan *)

Lemma get_hit (h : Heap) (repo : Repository) (name : string) (total : bool)
    (st : State) (w : value) :
  cache_get (mkKey (repo_id repo) name [] (total_kw total)) (cache st) = Some w ->
  get h repo name total st = (Ok w, st).
Proof.
  intro H. unfold get, get_repo_attr, cached. rewrite H. reflexivity.
Qed.

(** A resolution followed by a computation that neither reads nor
    changes the state. *)
Lemma get_then_pure (h h2 : Heap) (repo : Repository) (name : string)
    (total : bool) (k : value -> M value) (st s' : State) (w : value) :
  get h repo name total st = (Ok w, s') ->
  (exists r, forall s0, k w s0 = (r, s0)) ->
  exists r,
    bind (get h repo name total) k st = (r, s')
    /\ forall st2,
         cache_get (mkKey (repo_id repo) name [] (total_kw total)) (cache st2)
         = Some w ->
         bind (get h2 repo name total) k st2 = (r, st2).
Proof.
  intros Hget [r Hk]. exists r. unfold bind. rewrite Hget. split; [apply Hk |].
  intros st2 Hhit. rewrite (get_hit h2 repo name total st2 w Hhit). apply Hk.
Qed.

Lemma get_alone (h h2 : Heap) (repo : Repository) (name : string)
    (total : bool) (st s' : State) (w : value) :
  get h repo name total st = (Ok w, s') ->
  exists r,
    get h repo name total st = (r, s')
    /\ forall st2,
         cache_get (mkKey (repo_id repo) name [] (total_kw total)) (cache st2)
         = Some w ->
         get h2 repo name total st2 = (r, st2).
Proof.
  intro Hget. exists (Ok w). split; [exact Hget |].
  intros st2 Hhit. apply get_hit. exact Hhit.
Qed.

Ltac pure_continuation :=
  cbv beta; unfold bind, lift, ret, raise; cbv beta iota;
  repeat match goal with
         | |- context [match ?x with _ => _ end] => destruct x
         end;
  eexists; intro; reflexivity.

Section CacheFacts.

Variable float_repr : Q -> string.
Variable object_str : value -> string.

Lemma dispatch_related (h h2 : Heap) (owner : Owner) (repo : Repository) :
  Forall2 (row_related h repo)
    (dispatch float_repr object_str h owner repo)
    (dispatch float_repr object_str h2 owner repo).
Proof.
  unfold dispatch.
  change (split "private archived fork")
    with ["private"; "archived"; "fork"]%string.
  change (split ("issues contributors subscribers branches releases tags "
                 ++ "labels pulls downloads"))
    with ["issues"; "contributors"; "subscribers"; "branches"; "releases";
          "tags"; "labels"; "pulls"; "downloads"]%string.
  cbn [map app String.append].
  repeat (constructor;
          [split; [reflexivity |]; intro st; unfold field_key; cbn [fst snd];
           repeat match goal with
                  | |- context [accessor_of ?n] =>
                      let v := eval vm_compute in (accessor_of n) in
                      change (accessor_of n) with v
                  end;
           cbn [fst snd String.eqb Ascii.eqb Bool.eqb];
           match goal with
           | |- match get ?hh ?rr ?a ?t ?s with _ => _ end =>
               destruct (get hh rr a t s) as [[w | e] s'] eqn:Hget
           end;
           [ first
               [ exists (Ok w); split; [reflexivity |];
                 intros st2 Hhit; apply get_hit; exact Hhit
               | unfold expr_name, expr_full_name, expr_flag,
                   expr_get_languages, expr_commits_1y, expr_commit_activity;
                 apply get_then_pure; [exact Hget | pure_continuation]
               | exists (Ok w); unfold expr_get_commits, try_except;
                 rewrite Hget; split; [reflexivity |];
                 intros st2 Hhit;
                 rewrite (get_hit h2 repo _ _ st2 w Hhit); reflexivity ]
           | unfold expr_name, expr_full_name, expr_flag, expr_get_languages,
               expr_get_commits, expr_commits_1y, expr_commit_activity,
               try_except, bind;
             rewrite ?Hget; reflexivity ]
          |]).
  constructor.
Qed.

End CacheFacts.

Lemma cache_extends_refl (st : State) : cache_extends st st.
Proof. intros k v H. exact H. Qed.

Lemma cache_extends_trans (a b c : State) :
  cache_extends a b -> cache_extends b c -> cache_extends a c.
Proof. intros H1 H2 k v H. apply H2, H1, H. Qed.

Lemma get_extends (h : Heap) (repo : Repository) (name : string)
    (total : bool) (st s' : State) (r : result value) :
  get h repo name total st = (r, s') -> cache_extends st s'.
Proof.
  unfold get, get_repo_attr. intro H. apply cached_state in H.
  destruct H as [[-> _] | (Hnone & _ & [(w & _ & Hc) | (e & _ & Hc)])];
    intros k v Hk; rewrite ?Hc; auto.
  simpl. destruct (key_eqb k _) eqn:E; [|exact Hk].
  apply key_eqb_eq in E. subst. rewrite Hk in Hnone. discriminate.
Qed.

Lemma get_stores (h : Heap) (repo : Repository) (name : string)
    (total : bool) (st s' : State) (w : value) :
  get h repo name total st = (Ok w, s') ->
  cache_get (mkKey (repo_id repo) name [] (total_kw total)) (cache s') = Some w.
Proof. unfold get, get_repo_attr. apply cached_stores. Qed.

Section RescanFacts.

Variable float_repr : Q -> string.
Variable object_str : value -> string.
Variable fields : list string.

(** The state a row leaves is the state its resolution leaves. *)
Lemma row_extends (h : Heap) (repo : Repository)
    (row row2 : string * M value) (st s' : State) (r : result value) :
  row_related h repo row row2 -> snd row st = (r, s') -> cache_extends st s'.
Proof.
  intros [_ Hrow] Hrun. specialize (Hrow st).
  destruct (get h repo _ _ st) as [[w | e] s0] eqn:Hget.
  - destruct Hrow as (r0 & Hr0 & _). rewrite Hr0 in Hrun.
    inversion Hrun; subst. eapply get_extends; eauto.
  - rewrite Hrow in Hrun.
    destruct (String.eqb (fst row) "get_commits"); inversion Hrun; subst;
      eapply get_extends; eauto.
Qed.

Lemma assign_fields_rescan (h : Heap) (repo : Repository)
    (table table2 : list (string * M value)) :
  Forall2 (row_related h repo) table table2 ->
  NoDup (map fst table) ->
  forall (entry entry' : Entry) (st st' : State),
    assign_fields fields table entry st = (Ok entry', st') ->
    dict_get "get_commits" entry' <> Some VNone ->
    cache_extends st st'
    /\ forall st2,
         cache_extends st' st2 ->
         assign_fields fields table2 entry st2 = (Ok entry', st2).
Proof.
  unfold assign_fields.
  induction 1 as [|[n expr] [n2 expr2] table table2 Hrow HF IH];
    intros Hnd entry entry' st st' Hrun Hgc.
  - simpl in *. unfold ret in *. inversion Hrun; subst.
    split; [apply cache_extends_refl | reflexivity].
  - inversion Hnd as [|? ? Hn Hnd']; subst.
    simpl in Hrun. unfold bind in Hrun at 1. cbn [fst snd] in Hrun.
    destruct (field fields n expr entry st) as [[entry1 | e] s1] eqn:Hf;
      [|discriminate].
    destruct (IH Hnd' _ _ _ _ Hrun Hgc) as [Hext Hre].
    pose proof Hrow as [Hname Hrel]. cbn [fst snd] in Hname, Hrel. subst n2.
    simpl. cbn [fst snd]. unfold field in *.
    destruct (contains n fields).
    + unfold bind in Hf at 1.
      destruct (expr st) as [[v | e] s0] eqn:Hexpr; [|discriminate].
      unfold ret in Hf. inversion Hf; subst; clear Hf.
      pose proof (row_extends h repo _ _ st s1 _ Hrow Hexpr) as Hstep.
      split; [eapply cache_extends_trans; eauto |].
      intros st2 Hst2. specialize (Hrel st).
      destruct (get h repo _ _ st) as [[w | e] s0] eqn:Hget.
      * destruct Hrel as (r0 & Hr0 & Hhit). rewrite Hr0 in Hexpr.
        inversion Hexpr; subst.
        unfold bind at 1. unfold bind at 1.
        rewrite (Hhit st2).
        -- unfold ret at 1. apply Hre. exact Hst2.
        -- apply Hst2, Hext. unfold field_key. eapply get_stores; eauto.
      * exfalso. rewrite Hrel in Hexpr.
        destruct (String.eqb_spec n "get_commits") as [-> | _];
          [|discriminate].
        inversion Hexpr; subst. apply Hgc.
        apply (assign_fields_dict_get fields "get_commits") in Hrun;
          [|exact Hn].
        rewrite Hrun. apply dict_get_dict_set_same.
    + unfold ret in Hf. inversion Hf; subst.
      split; [exact Hext |]. intros st2 Hst2.
      unfold bind at 1. unfold ret at 1. apply Hre. exact Hst2.
Qed.

(** X12: once the record of a repository has been built without
    callbacks, building it again gives the same record without any
    request and without touching the state, whatever the repository has
    become in the meantime: every field is answered from the cache.
    The one exception is a [get_commits] that failed, which is asked
    again. *)
Theorem build_entry_again_from_cache (h h2 : Heap) (owner : Owner)
    (repo : Repository) (entry : Entry) (st st' st2 : State) :
  build_entry float_repr object_str h owner fields [] repo st
  = (Ok entry, st') ->
  dict_get "get_commits" entry <> Some VNone ->
  cache_extends st' st2 ->
  build_entry float_repr object_str h2 owner fields [] repo st2
  = (Ok entry, st2).
Proof.
  intros Hrun Hgc Hext. rewrite build_entry_dispatch in *.
  unfold apply_callbacks in *. cbn [for_each] in *.
  rewrite bind_ret_r in *.
  eapply assign_fields_rescan; eauto.
  - apply dispatch_related.
  - rewrite dispatch_order_names. apply dispatch_order_NoDup.
Qed.

End RescanFacts.

Lemma build_entry_again_from_cache_witness :
  exists entry st',
    build_entry Demo.float_repr Demo.object_str Fixture.heap Fixture.owner
      default_fields [] Fixture.repo empty_state = (Ok entry, st')
    /\ build_entry Demo.float_repr Demo.object_str Demo.heap Fixture.owner
         default_fields [] Fixture.repo st' = (Ok entry, st').
Proof.
  assert (exists entry st',
             build_entry Demo.float_repr Demo.object_str Fixture.heap
               Fixture.owner default_fields [] Fixture.repo empty_state
             = (Ok entry, st')) as (entry & st' & Hrun)
    by (do 2 eexists; vm_compute; reflexivity).
  exists entry, st'. split; [exact Hrun |].
  apply (build_entry_again_from_cache Demo.float_repr Demo.object_str
           default_fields Fixture.heap Demo.heap Fixture.owner Fixture.repo
           entry empty_state st' st' Hrun).
  - vm_compute in Hrun. inversion Hrun; subst. vm_compute. discriminate.
  - apply cache_extends_refl.
Defined.

Lemma ran_at_most_once_bound (k : Key) (base : nat) (st : State) :
  ran_at_most_once k base st -> (accessor_calls k (trace st) <= S base)%nat.
Proof. intros [-> | [-> _]]; lia. Qed.

Lemma accessor_calls_one (k kk : Key) :
  accessor_calls k [Ev_accessor kk] = if key_eqb k kk then 1%nat else 0%nat.
Proof. unfold accessor_calls. simpl. destruct (key_eqb k kk); reflexivity. Qed.

(** One resolution keeps the invariant, unless it ran the accessor of
    [k] and that raised. *)
Lemma get_once (h : Heap) (repo : Repository) (name : string) (total : bool)
    (k : Key) (base : nat) (st s' : State) (r : result value) :
  ran_at_most_once k base st ->
  get h repo name total st = (r, s') ->
  ran_at_most_once k base s'
  \/ (k = mkKey (repo_id repo) name [] (total_kw total)
      /\ (exists e, r = Raise e)
      /\ accessor_calls k (trace s') = S base).
Proof.
  intros Hinv Hget. unfold get, get_repo_attr in Hget.
  apply cached_state in Hget.
  destruct Hget as [[-> _] | (Hnone & Ht & Hres)]; [left; exact Hinv |].
  set (kk := mkKey (repo_id repo) name [] (total_kw total)) in *.
  assert (accessor_calls k (trace s')
          = (accessor_calls k (trace st)
             + if key_eqb k kk then 1 else 0)%nat) as Hcount
    by (rewrite Ht, accessor_calls_app, accessor_calls_one; reflexivity).
  destruct (key_eqb k kk) eqn:E.
  - apply key_eqb_eq in E. subst k.
    destruct Hinv as [Hb | [_ Hc]]; [|contradiction].
    destruct Hres as [(w & -> & Hc) | (e & -> & Hc)].
    + left. right. split; [lia |]. rewrite Hc. simpl.
      rewrite key_eqb_refl. discriminate.
    + right. split; [reflexivity |]. split; [eauto | lia].
  - left. assert (cache_get k (cache s') = cache_get k (cache st)) as Hsame.
    { destruct Hres as [(w & _ & ->) | (e & _ & ->)]; [|reflexivity].
      simpl. rewrite E. reflexivity. }
    destruct Hinv as [Hb | [Hb Hc]]; [left; lia |].
    right. split; [lia | rewrite Hsame; exact Hc].
Qed.

Section OnceFacts.

Variable float_repr : Q -> string.
Variable object_str : value -> string.

Lemma row_once (h : Heap) (repo : Repository) (row row2 : string * M value)
    (k : Key) (base : nat) (st s' : State) (r : result value) :
  row_related h repo row row2 ->
  k_name k <> "get_commits"%string ->
  ran_at_most_once k base st ->
  snd row st = (r, s') ->
  ran_at_most_once k base s'
  \/ ((exists e, r = Raise e) /\ accessor_calls k (trace s') = S base).
Proof.
  intros [_ Hrow] Hk Hinv Hrun. specialize (Hrow st).
  destruct (get h repo _ _ st) as [[w | e] s0] eqn:Hget.
  - destruct Hrow as (r0 & Hr0 & _). rewrite Hr0 in Hrun.
    inversion Hrun; subst.
    destruct (get_once _ _ _ _ k base _ _ _ Hinv Hget)
      as [H | (_ & (e & He) & _)]; [left; exact H | discriminate].
  - rewrite Hrow in Hrun.
    destruct (get_once _ _ _ _ k base _ _ _ Hinv Hget)
      as [H | (Heq & _ & Hc)].
    + left. destruct (String.eqb (fst row) "get_commits");
        inversion Hrun; subst; exact H.
    + destruct (String.eqb_spec (fst row) "get_commits") as [Hgc | _].
      * exfalso. apply Hk. rewrite Heq, Hgc. reflexivity.
      * inversion Hrun; subst. right. split; [eauto | exact Hc].
Qed.

Lemma assign_fields_once (h : Heap) (repo : Repository) (fields : list string)
    (table table2 : list (string * M value)) (k : Key) (base : nat) :
  Forall2 (row_related h repo) table table2 ->
  k_name k <> "get_commits"%string ->
  forall (entry : Entry) (st st' : State) (r : result Entry),
    ran_at_most_once k base st ->
    assign_fields fields table entry st = (r, st') ->
    ran_at_most_once k base st'
    \/ ((exists e, r = Raise e) /\ accessor_calls k (trace st') = S base).
Proof.
  unfold assign_fields. intros HF Hk.
  induction HF as [|row row2 table table2 Hrow HF IH];
    intros entry st st' r Hinv Hrun.
  - simpl in Hrun. unfold ret in Hrun. inversion Hrun; subst. left. exact Hinv.
  - simpl in Hrun. unfold bind in Hrun at 1. unfold field in Hrun at 1.
    destruct (contains (fst row) fields).
    + unfold bind in Hrun at 1.
      destruct (snd row st) as [[v | e] s0] eqn:Hexpr.
      * unfold ret in Hrun at 1.
        destruct (row_once h repo row row2 k base st s0 _ Hrow Hk Hinv Hexpr)
          as [H | [[e He] _]]; [|discriminate].
        eapply IH; eauto.
      * inversion Hrun; subst.
        destruct (row_once h repo row row2 k base st st' _ Hrow Hk Hinv Hexpr)
          as [H | [_ Hc]]; [left; exact H | right; eauto].
    + unfold ret in Hrun at 1. eapply IH; eauto.
Qed.

Lemma scan_loop_once (h : Heap) (owner : Owner) (fields : list string)
    (k : Key) (base : nat) (repos : list Repository) :
  k_name k <> "get_commits"%string ->
  forall st,
    ran_at_most_once k base st ->
    (accessor_calls k
       (trace (snd (scan_loop
                      (build_entry float_repr object_str h owner fields [])
                      repos st)))
     <= S base)%nat.
Proof.
  intro Hk. induction repos as [|repo repos IH]; intros st Hinv; simpl.
  - apply ran_at_most_once_bound. exact Hinv.
  - destruct (build_entry _ _ _ _ _ _ repo st) as [[entry | e] s1] eqn:Hb;
      rewrite build_entry_dispatch in Hb; unfold apply_callbacks in Hb;
      cbn [for_each] in Hb; rewrite bind_ret_r in Hb;
      destruct (assign_fields_once h repo fields _ _ k base
                  (dispatch_related float_repr object_str h h owner repo)
                  Hk _ _ _ _ Hinv Hb) as [H | [[e' He] Hc]].
    + specialize (IH s1 H). destruct (scan_loop _ repos s1). exact IH.
    + discriminate.
    + simpl. apply ran_at_most_once_bound. exact H.
    + simpl. lia.
Qed.

Lemma resolve_owner_calls (g : Github)
    (org_name user_name owner_name : option string) (st st1 : State)
    (r : result Owner) (k : Key) :
  resolve_owner g org_name user_name owner_name st = (r, st1) ->
  cache st1 = cache st
  /\ accessor_calls k (trace st1) = accessor_calls k (trace st).
Proof.
  unfold resolve_owner, try_except, bind, log, lift, raise.
  cbn [cache trace].
  destruct (negb (truthy_str owner_name));
    [destruct (truthy_str org_name)
    |destruct (get_organization g owner_name) as [o | e];
     [|destruct e; try destruct (get_user g owner_name)]];
    intro H; inversion H; subst; cbn [cache trace];
    rewrite ?accessor_calls_app; unfold accessor_calls; simpl;
    split; auto; lia.
Qed.

(** X11: in a scan without callbacks no attribute is fetched twice: for
    every call signature other than those of [get_commits], the accessor
    runs at most once during the whole scan, however many fields ask for
    the attribute ([commits_1y] and [commit_activity] share one) and
    however often the repository occurs in the listing. *)
Theorem scan_repos_fetches_once (re_match : string -> string -> result bool)
    (g : Github) (h : Heap)
    (org_name user_name owner_name repo_name_pat : option string)
    (fields : option (list string)) (st : State) (k : Key) :
  k_name k <> "get_commits"%string ->
  (accessor_calls k
     (trace (snd (scan_repos float_repr object_str re_match g h org_name
                    user_name owner_name repo_name_pat fields [] st)))
   <= S (accessor_calls k (trace st)))%nat.
Proof.
  intro Hk. unfold scan_repos.
  destruct (negb _); [simpl; lia |].
  destruct (resolve_owner _ _ _ _ _) as [[owner | e] st1] eqn:Hown;
    apply (resolve_owner_calls _ _ _ _ _ _ _ k) in Hown;
    destruct Hown as [Hc Ht]; [|simpl; lia].
  unfold bind, log, lift. cbn [cache trace].
  destruct (get_repos owner) as [listed | e];
    [|simpl; rewrite accessor_calls_app, Ht;
      change (accessor_calls k [Ev_get_repos (login owner)]) with 0%nat; lia].
  set (st2 := mkState (cache st1) (trace st1 ++ [Ev_get_repos (login owner)])).
  assert (ran_at_most_once k (accessor_calls k (trace st)) st2) as Hinv.
  { left. unfold st2. simpl. rewrite accessor_calls_app, Ht.
    change (accessor_calls k [Ev_get_repos (login owner)]) with 0%nat. lia. }
  destruct (if truthy_str repo_name_pat then _ else _) as [matching | e].
  - pose proof (scan_loop_once h owner
                  match fields with
                  | Some (f :: fs) => f :: fs
                  | _ => default_fields
                  end k _ matching Hk st2 Hinv) as Hloop.
    destruct (scan_loop _ matching st2) as [r st3]. exact Hloop.
  - simpl. apply ran_at_most_once_bound in Hinv. exact Hinv.
Qed.

End OnceFacts.

Lemma scan_repos_fetches_once_witness :
  (accessor_calls (mkKey 7 "get_stats_commit_activity" [] [])
     (trace (snd (scan_repos Demo.float_repr Demo.object_str Demo.re_match
                    Fixture.github Fixture.heap None None
                    (Some "deeplook"%string) None
                    (Some ["commits_1y"; "commit_activity"]%string) []
                    empty_state)))
   <= 1)%nat.
Proof.
  apply (scan_repos_fetches_once Demo.float_repr Demo.object_str Demo.re_match
           Fixture.github Fixture.heap None None (Some "deeplook"%string)
           None (Some ["commits_1y"; "commit_activity"]%string) empty_state
           (mkKey 7 "get_stats_commit_activity" [] [])).
  discriminate.
Defined.

(* ------------------------------------------------------------------ *)
(** ** The commit-activity fields *)





(* ------------------------------------------------------------------ *)
(** ** The order of the listing *)

Section SortedUnique.

Context {A : Type}.
Variable key : A -> string.

Lemma sorted_unique (l1 l2 : list A) :
  StronglySorted (key_le key) l1 -> StronglySorted (key_le key) l2 ->
  Permutation l1 l2 -> NoDup (map key l1) -> l1 = l2.
Proof.
  revert l2. induction l1 as [|a l1 IH]; intros l2 Hs1 Hs2 Hp Hnd.
  - apply Permutation_nil in Hp. subst. reflexivity.
  - destruct l2 as [|b l2];
      [apply Permutation_sym, Permutation_nil in Hp; discriminate |].
    inversion Hs1 as [|? ? Hs1' Ha]; subst.
    inversion Hs2 as [|? ? Hs2' Hb]; subst.
    inversion Hnd as [|? ? Hka Hnd']; subst.
    assert (a = b) as ->.
    { assert (In b (a :: l1)) as Hbin
        by (eapply Permutation_in; [apply Permutation_sym; exact Hp | now left]).
      assert (In a (b :: l2)) as Hain
        by (eapply Permutation_in; [exact Hp | now left]).
      destruct Hbin as [-> | Hbin]; [reflexivity |].
      destruct Hain as [-> | Hain]; [reflexivity |].
      exfalso. apply Hka.
      rewrite Forall_forall in Ha, Hb.
      rewrite (String.leb_antisym _ _ (Ha b Hbin) (Hb a Hain)).
      apply in_map. exact Hbin. }
    f_equal. apply IH; auto. eapply Permutation_cons_inv; eauto.
Qed.

End SortedUnique.

(** X14: the first list does not depend on the order in which the client
    lists the repositories: two listings of the same repositories, with
    names that differ beyond case, are sorted into the same list. *)
Theorem listing_order_irrelevant (listed listed' : list Repository) :
  Permutation listed listed' ->
  NoDup (map (fun r => lower (r_name r)) listed) ->
  sorted (fun r => lower (r_name r)) listed
  = sorted (fun r => lower (r_name r)) listed'.
Proof.
  intros Hp Hnd. apply (sorted_unique (fun r => lower (r_name r))).
  - apply sorted_sorted.
  - apply sorted_sorted.
  - rewrite <- (sorted_perm _ listed), <- (sorted_perm _ listed'). exact Hp.
  - eapply Permutation_NoDup; [|exact Hnd].
    apply Permutation_map. apply sorted_perm.
Qed.

Lemma listing_order_irrelevant_witness :
  sorted (fun r => lower (r_name r)) [Demo.gamma; Demo.Beta; Demo.alpha]
  = sorted (fun r => lower (r_name r)) [Demo.Beta; Demo.alpha; Demo.gamma].
Proof.
  apply listing_order_irrelevant.
  - apply Permutation_cons_append.
  - simpl. repeat constructor; simpl; intuition discriminate.
Defined.

(* ------------------------------------------------------------------ *)
(** ** [ReposheetUI.start_scan]: from the URL to the scan *)

Lemma prefix_app (p s : string) :
  String.prefix p s = true -> exists r, s = (p ++ r)%string.
Proof.
  revert s; induction p as [|a p IH]; intros s.
  - intros _. exists s. reflexivity.
  - destruct s as [|b s]; simpl; [intro H; discriminate H |].
    destruct (ascii_dec a b) as [-> | _]; [|intro H; discriminate H].
    intro H. destruct (IH s H) as [r ->]. exists r. reflexivity.
Qed.

Lemma prefix_of_app (p r : string) : String.prefix p (p ++ r) = true.
Proof.
  induction p as [|a p IH]; simpl.
  - destruct r; reflexivity.
  - destruct (ascii_dec a a) as [_ | Hne]; [exact IH | contradiction].
Qed.

(** The first piece of a split holds no separator, and is followed by
    nothing or by a separator. *)
Lemma split_char_head (c : ascii) (r : string) :
  exists w ws,
    split_char c r = w :: ws
    /\ has_char c w = false
    /\ ((r = w /\ ws = []) \/ exists rest, r = (w ++ String c rest)%string).
Proof.
  induction r as [|a r IH]; simpl.
  - exists EmptyString, []. auto.
  - destruct (Ascii.eqb_spec a c) as [-> | Hne].
    + exists EmptyString, (split_char c r). simpl. eauto.
    + destruct IH as (w & ws & -> & Hw & Hr).
      exists (String a w), ws. simpl.
      destruct (Ascii.eqb_spec a c) as [? | _]; [contradiction |].
      repeat split; auto.
      destruct Hr as [[-> ->] | [rest ->]]; [left; auto | right; eauto].
Qed.

Lemma split_after_host (r : string) :
  split_char "/" ("github.com/" ++ r) = "github.com"%string :: split_char "/" r.
Proof. reflexivity. Qed.

Lemma url_owner_name_parts (value : string) :
  url_rejected value = false -> exists owner, owner_name_of value = Ok owner.
Proof.
  unfold url_rejected. intro Hr. apply orb_false_elim in Hr.
  destruct Hr as [Hp _]. apply negb_false_iff in Hp.
  apply prefix_app in Hp. destruct Hp as [r ->].
  destruct (split_char_head "/" r) as (w & ws & Hs & _).
  exists w. unfold owner_name_of. rewrite split_after_host, Hs. reflexivity.
Qed.

(** X15: a value passes the test of [start_scan] exactly when it begins
    with [github.com/] (the second test, for a slash, never decides);
    and then [split("/")[1]] exists, so no [IndexError] can occur: the
    owner name taken is the text between that first slash and the next
    one, or the end. *)
Theorem url_owner_name (value : string) :
  url_rejected value = negb (String.prefix "github.com/" value)
  /\ (url_rejected value = false ->
      exists owner tail,
        value = ("github.com/" ++ owner ++ tail)%string
        /\ has_char "/" owner = false
        /\ (tail = EmptyString \/ exists t, tail = String "/" t)
        /\ owner_name_of value = Ok owner).
Proof.
  assert (String.prefix "github.com/" value = true ->
          exists owner tail,
            value = ("github.com/" ++ owner ++ tail)%string
            /\ has_char "/" owner = false
            /\ (tail = EmptyString \/ exists t, tail = String "/" t)
            /\ owner_name_of value = Ok owner
            /\ has_char "/" value = true) as Hparse.
  { intro Hp. apply prefix_app in Hp. destruct Hp as [r ->].
    destruct (split_char_head "/" r) as (w & ws & Hs & Hw & Hr).
    assert (owner_name_of ("github.com/" ++ r) = Ok w) as Ho
      by (unfold owner_name_of; rewrite split_after_host, Hs; reflexivity).
    destruct Hr as [[-> ->] | [rest ->]].
    - exists w, EmptyString.
      assert ((w ++ EmptyString)%string = w) as Hnil
        by (clear; induction w as [|a w IH]; simpl;
            [reflexivity | rewrite IH; reflexivity]).
      rewrite Hnil. repeat split; auto.
    - exists w, (String "/" rest). repeat split; eauto. }
  unfold url_rejected.
  destruct (String.prefix "github.com/" value) eqn:Hp; simpl.
  - destruct (Hparse eq_refl) as (owner & tail & Hv & Hw & Ht & Ho & Hs).
    rewrite Hs. split; [reflexivity |]. intros _. exists owner, tail. auto.
  - split; [reflexivity | discriminate].
Qed.

Lemma url_owner_name_witness :
  exists owner tail,
    "github.com/deeplook/reposheet"%string
    = ("github.com/" ++ owner ++ tail)%string
    /\ has_char "/" owner = false
    /\ (tail = EmptyString \/ exists t, tail = String "/" t)
    /\ owner_name_of "github.com/deeplook/reposheet" = Ok owner.
Proof.
  destruct (url_owner_name "github.com/deeplook/reposheet") as [_ H].
  apply H. reflexivity.
Defined.

Section StartScanFacts.

Variable float_repr : Q -> string.
Variable object_str : value -> string.
Variable re_match : string -> string -> result bool.
Variable g : Github.
Variable h : Heap.

(** X16: what [start_scan] asks of the scanner.  A rejected value gives
    the message and no scan.  An accepted value always yields a scan by
    combined owner name, never an [IndexError].  When the owner part of
    the value is empty ([github.com/] alone, or followed by a slash) the
    value is accepted all the same, and the scan it starts ends at once
    with [AssertionError] and without any request. *)
Theorem start_scan_cases (rx_value : string) (fields : option (list string))
    (callbacks : list Callback) (st : State) :
  let requested := match fields with
                   | Some (f :: fs) => f :: fs
                   | _ => ui_default_fields
                   end in
  (forall value,
      url_rejected value = true ->
      start_scan float_repr object_str re_match g h value rx_value fields
        callbacks st
      = inl "Expected: github.com/&lt;owner&gt;"%string)
  /\ (forall value,
         url_rejected value = false ->
         exists owner,
           owner_name_of value = Ok owner
           /\ start_scan float_repr object_str re_match g h value rx_value
                fields callbacks st
              = inr (Ok (scan_repos float_repr object_str re_match g h None
                           None (Some owner) (Some rx_value) (Some requested)
                           callbacks st)))
  /\ (forall tail,
         tail = EmptyString \/ (exists t, tail = String "/" t) ->
         start_scan float_repr object_str re_match g h ("github.com/" ++ tail)
           rx_value fields callbacks st
         = inr (Ok (mkRun [] (Some AssertionError), st))).
Proof.
  intro requested. split; [|split].
  - intros value Hr. unfold start_scan. rewrite Hr. reflexivity.
  - intros value Hr.
    destruct (url_owner_name_parts value Hr) as (owner & Ho).
    exists owner. split; [exact Ho |].
    unfold start_scan. rewrite Hr, Ho. reflexivity.
  - intros tail Ht. unfold start_scan.
    assert (url_rejected ("github.com/" ++ tail) = false) as ->
      by (unfold url_rejected; rewrite prefix_of_app; reflexivity).
    assert (owner_name_of ("github.com/" ++ tail) = Ok EmptyString) as ->.
    { unfold owner_name_of. rewrite split_after_host.
      destruct Ht as [-> | [t ->]]; reflexivity. }
    reflexivity.
Qed.

End StartScanFacts.

Lemma start_scan_cases_witness :
  start_scan Demo.float_repr Demo.object_str Demo.re_match Demo.github
    Demo.heap "https://github.com/python" EmptyString None [] empty_state
  = inl "Expected: github.com/&lt;owner&gt;"%string
  /\ start_scan Demo.float_repr Demo.object_str Demo.re_match Demo.github
       Demo.heap "github.com/" EmptyString None [] empty_state
     = inr (Ok (mkRun [] (Some AssertionError), empty_state)).
Proof.
  destruct (start_scan_cases Demo.float_repr Demo.object_str Demo.re_match
              Demo.github Demo.heap EmptyString None [] empty_state)
    as (Hrej & _ & Hempty).
  split.
  - apply Hrej. reflexivity.
  - apply (Hempty EmptyString). left. reflexivity.
Defined.

(* ------------------------------------------------------------------ *)
(** ** The [full_name] field *)

Lemma split_char_no_sep (c : ascii) (s : string) :
  has_char c s = false -> split_char c s = [s].
Proof.
  induction s as [|a s IH]; simpl; [reflexivity |].
  intro H. apply orb_false_elim in H. destruct H as [Ha Hs].
  rewrite Ha, (IH Hs). reflexivity.
Qed.

Lemma split_char_app (c : ascii) (w rest : string) :
  has_char c w = false ->
  split_char c (w ++ String c rest) = w :: split_char c rest.
Proof.
  induction w as [|a w IH]; simpl.
  - intros _. rewrite Ascii.eqb_refl. reflexivity.
  - intro H. apply orb_false_elim in H. destruct H as [Ha Hw].
    rewrite Ha, (IH Hw). reflexivity.
Qed.

(** X17: the [full_name] field needs a string with a slash.  From
    [owner/repo], possibly followed by further slash-separated parts, it
    makes a link whose text is the whole full name and whose address is
    built from the login of the scanned owner and the part after the
    first slash; a string without a slash raises [IndexError], a value
    that is not a string [AttributeError]. *)
Theorem full_name_link (object_str : value -> string) (h : Heap)
    (owner : Owner) (repo : Repository) (st s' : State) (full_name : value) :
  get h repo "full_name" false st = (Ok full_name, s') ->
  (forall s,
      full_name = VStr s -> has_char "/" s = false ->
      expr_full_name object_str h owner repo st = (Raise IndexError, s'))
  /\ (forall o r tail,
         full_name = VStr (o ++ String "/" (r ++ tail)) ->
         has_char "/" o = false -> has_char "/" r = false ->
         tail = EmptyString \/ (exists t, tail = String "/" t) ->
         expr_full_name object_str h owner repo st
         = (Ok (VStr (anchor owner r (o ++ String "/" (r ++ tail)))), s'))
  /\ ((forall s, full_name <> VStr s) ->
      expr_full_name object_str h owner repo st = (Raise AttributeError, s')).
Proof.
  intro Hget. unfold expr_full_name, bind. rewrite Hget.
  unfold lift, ret. split; [|split].
  - intros s -> Hs. rewrite (split_char_no_sep _ _ Hs). reflexivity.
  - intros o r tail -> Ho Hr Ht. rewrite (split_char_app _ _ _ Ho).
    destruct Ht as [-> | [t ->]].
    + assert ((r ++ EmptyString)%string = r) as ->
        by (clear; induction r as [|a r IH]; simpl;
            [reflexivity | rewrite IH; reflexivity]).
      rewrite (split_char_no_sep _ _ Hr). reflexivity.
    + rewrite (split_char_app _ _ _ Hr). reflexivity.
  - intro Hns. destruct full_name; try reflexivity.
    exfalso. eapply Hns. reflexivity.
Qed.

Lemma full_name_link_witness :
  let st := mkState [(mkKey 1 "full_name" [] [],
                      VStr "deeplook/reposheet")] [] in
  expr_full_name Demo.object_str Demo.heap Demo.octocat Demo.alpha st
  = (Ok (VStr (anchor Demo.octocat "reposheet" "deeplook/reposheet")), st).
Proof.
  intro st.
  destruct (full_name_link Demo.object_str Demo.heap Demo.octocat Demo.alpha
              st st (VStr "deeplook/reposheet") eq_refl) as (_ & Hlink & _).
  apply (Hlink "deeplook"%string "reposheet"%string EmptyString);
    auto.
Defined.
